(** * FlexFX: recipes, the profile compiler and the play-list player

    A shallow embedding of [flexFX.ts] (namespace [flexFX]).

    Conventions of the embedding:
    - a TypeScript [number] is an exact rational ([Q]); [==] on numbers is
      [Qeq_bool], [Math.floor] is [Qfloor], [Math.min]/[Math.max] are
      [Qmin]/[Qmax];
    - the module-level variables ([playList], [flexFXList] and the three
      player flags) form the record [State]; code that reads and writes
      them runs in the monad [Cmd], which also logs the calls made to the
      micro:bit runtime ([control.raiseEvent], [control.waitForEvent],
      [control.inBackground], [pause], [music.playSoundEffect]);
    - objects compared by reference ([indexOf] on [flexFXList]) carry an
      allocation number [oid]; array methods ([find], [indexOf], [splice],
      [shift], [push], [pop]) follow ECMAScript;
    - [player()] blocks inside [pause] and [music.playSoundEffect]; it is
      cut into the atomic stretches between two blocking calls
      ([worker_step]). *)

From Stdlib Require Import ZArith QArith Qround Qminmax Lqa Lia.
From Stdlib Require Import Bool List String Ascii DecimalString DecimalZ.
Import ListNotations.

Local Open Scope Z_scope.

(** ** Text of integers: [convertToText] and [parseInt] *)

(** [convertToText(n)] for an integral [n]: decimal digits, a leading [-]
    for negative values. *)
Definition convertToText (z : Z) : string :=
  NilZero.string_of_int (Z.to_int z).

Definition digitValue (c : ascii) : option Z :=
  let n := Z.of_nat (nat_of_ascii c) in
  if (48 <=? n) && (n <=? 57) then Some (n - 48) else None.

(** The longest prefix of decimal digits, read left to right; [acc] is
    [None] until a first digit has been seen. *)
Fixpoint parseDigits (s : string) (acc : option Z) : option Z :=
  match s with
  | EmptyString => acc
  | String c t =>
      match digitValue c with
      | Some d =>
          parseDigits t (Some (10 * match acc with Some a => a | None => 0 end + d))
      | None => acc
      end
  end.

(** [parseInt(s)]: an optional sign, then the longest run of decimal
    digits; [None] stands for [NaN]. (Leading white space and a [0x]
    prefix are left out: the player only reads what [convertToText]
    wrote.) *)
Definition parseInt (s : string) : option Z :=
  match s with
  | String "-"%char t => option_map Z.opp (parseDigits t None)
  | String "+"%char t => parseDigits t None
  | _ => parseDigits s None
  end.

(** [s.charAt(0) == c] *)
Definition charAt0_is (c : ascii) (s : string) : bool :=
  match s with
  | String c' _ => Ascii.eqb c' c
  | EmptyString => false
  end.

(** [s.slice(b, e)] for indices [0 <= b <= e] *)
Definition slice (b e : nat) (s : string) : string :=
  substring b (e - b) s.

(** Value of a digit sequence read left to right from [acc]. *)
Fixpoint digitsValue (d : Decimal.uint) (acc : Z) : Z :=
  match d with
  | Decimal.Nil => acc
  | Decimal.D0 l => digitsValue l (10 * acc + 0)
  | Decimal.D1 l => digitsValue l (10 * acc + 1)
  | Decimal.D2 l => digitsValue l (10 * acc + 2)
  | Decimal.D3 l => digitsValue l (10 * acc + 3)
  | Decimal.D4 l => digitsValue l (10 * acc + 4)
  | Decimal.D5 l => digitsValue l (10 * acc + 5)
  | Decimal.D6 l => digitsValue l (10 * acc + 6)
  | Decimal.D7 l => digitsValue l (10 * acc + 7)
  | Decimal.D8 l => digitsValue l (10 * acc + 8)
  | Decimal.D9 l => digitsValue l (10 * acc + 9)
  end.

(** ** Enumerations *)

Inductive Wave : Set := SINE | SQUARE | TRIANGLE | SAWTOOTH | NOISE.

Inductive Attack : Set := SLOW | MEDIUM | FAST.

Inductive Effect : Set := NONE | VIBRATO | TREMOLO | WARBLE.

Inductive BuiltInFlexFX : Set :=
| LAUGH | UHOH | SCREAM | CRY | MOAN
| SHOUT | VIOLIN | HORN | FLUTE | SAX
| TWEET | TING | CHIME | WHALE | MIAOW
| CLUCK | WOOF | MOO | MOTOR | SIREN.

(** The number an enum member stands for (members are numbered from 0). *)
Definition BuiltInFlexFX_value (b : BuiltInFlexFX) : Z :=
  match b with
  | LAUGH => 0 | UHOH => 1 | SCREAM => 2 | CRY => 3 | MOAN => 4
  | SHOUT => 5 | VIOLIN => 6 | HORN => 7 | FLUTE => 8 | SAX => 9
  | TWEET => 10 | TING => 11 | CHIME => 12 | WHALE => 13 | MIAOW => 14
  | CLUCK => 15 | WOOF => 16 | MOO => 17 | MOTOR => 18 | SIREN => 19
  end.

Definition builtInId : list string :=
  [ "laugh"; "uh-oh"; "scream"; "cry"; "moan";
    "shout"; "violin"; "horn"; "sax"; "flute";
    "tweet"; "ting"; "chime"; "whale"; "miaow";
    "cluck"; "woof"; "moo"; "motor"; "siren" ]%string.

(** [builtInId[i]]; [None] is [undefined] (index outside the array). *)
Definition builtInId_at (i : Z) : option string :=
  if i <? 0 then None else nth_error builtInId (Z.to_nat i).

Inductive PLAYER : Set := STARTING | FINISHED | ALLPLAYED.

(** ** Plays *)

(** What [music.createSoundEffect] is given; the sound string it returns is
    kept as the tuple of its arguments, in the order of the call. *)
Record SoundEffect : Set := createSoundEffect {
  waveShape : Wave;
  startFrequency : Q;
  endFrequency : Q;
  startVolume : Q;
  endVolume : Q;
  duration : Q;
  effect : Effect;
  interpolation : Attack
}.

(** An element of [Play.parts]: a compiled sound string, or a string the
    module built itself (["_" + ms] for a gap inside a Play, ["s" + ms] for a
    queued pause). *)
Inductive Part : Set :=
| Sound (se : SoundEffect)
| Tagged (s : string).

Record Play : Set := mkPlay { parts : list Part }.

(** [p.charAt(0) == c] on an element of [parts]. A sound string produced by
    [music.createSoundEffect] starts with a digit, never with a tag. *)
Definition startsWith (c : ascii) (p : Part) : bool :=
  match p with
  | Tagged s => charAt0_is c s
  | Sound _ => false
  end.

(** [parseInt(sound.slice(1, sound.length))] *)
Definition taggedLength (p : Part) : option Z :=
  match p with
  | Tagged s => parseInt (slice 1 (String.length s) s)
  | Sound _ => None
  end.

(** ** Recipes *)

Record FlexFX : Set := mkFlexFX {
  oid : nat;                 (* which object this is (reference identity) *)
  id : option string;        (* [None] is [undefined] *)
  playPartA : bool;
  waveA : Wave;
  attackA : Attack;
  effectA : Effect;
  timeRatioA : Q;
  skipPartB : bool;
  playPartB : bool;
  waveB : Wave;
  attackB : Attack;
  effectB : Effect;
  timeRatioB : Q;
  playPartC : bool;
  waveC : Wave;
  attackC : Attack;
  effectC : Effect;
  timeRatioC : Q;
  freqRatio0 : Q;
  volRatio0 : Q;
  freqRatio1 : Q;
  volRatio1 : Q;
  usesPoint2 : bool;
  freqRatio2 : Q;
  volRatio2 : Q;
  usesPoint3 : bool;
  freqRatio3 : Q;
  volRatio3 : Q;
  defaultFreq : Q;
  defaultVol : Q;
  defaultMs : Q
}.

(** [new FlexFX(id)]. The constructor sets [id] and clears five flags; the
    other fields start out [undefined]: [skipPartB] then reads as false, and
    the numeric and style fields, given 0 and the first enum member here,
    are written by the setters before [compilePlay] reads them. *)
Definition new_FlexFX (o : nat) (i : string) : FlexFX :=
  {| oid := o; id := Some i;
     playPartA := false; waveA := SINE; attackA := SLOW; effectA := NONE;
     timeRatioA := 0%Q;
     skipPartB := false;
     playPartB := false; waveB := SINE; attackB := SLOW; effectB := NONE;
     timeRatioB := 0%Q;
     playPartC := false; waveC := SINE; attackC := SLOW; effectC := NONE;
     timeRatioC := 0%Q;
     freqRatio0 := 0%Q; volRatio0 := 0%Q;
     freqRatio1 := 0%Q; volRatio1 := 0%Q;
     usesPoint2 := false; freqRatio2 := 0%Q; volRatio2 := 0%Q;
     usesPoint3 := false; freqRatio3 := 0%Q; volRatio3 := 0%Q;
     defaultFreq := 0%Q; defaultVol := 0%Q; defaultMs := 0%Q |}.

Definition goodFreqRatio (freq : Q) : Q := Qmin (Qmax freq 0) 2000.

Definition goodVolRatio (vol : Q) : Q := Qmin (Qmax vol 0) 100.

Definition goodTimeRatio (time timeLeft : Q) : Q := Qmin (Qmax time 0) timeLeft.

Definition setPartA (freq0 vol0 : Q) (wave : Wave) (attack : Attack)
    (eff : Effect) (freq1 vol1 ms1 : Q) (this : FlexFX) : FlexFX :=
  {| oid := oid this; id := id this;
     playPartA := true; waveA := wave; attackA := attack; effectA := eff;
     timeRatioA := goodTimeRatio ms1 1;
     skipPartB := skipPartB this;
     playPartB := false; waveB := waveB this; attackB := attackB this;
     effectB := effectB this; timeRatioB := timeRatioB this;
     playPartC := false; waveC := waveC this; attackC := attackC this;
     effectC := effectC this; timeRatioC := timeRatioC this;
     freqRatio0 := goodFreqRatio freq0; volRatio0 := goodVolRatio vol0;
     freqRatio1 := goodFreqRatio freq1; volRatio1 := goodVolRatio vol1;
     usesPoint2 := false; freqRatio2 := freqRatio2 this;
     volRatio2 := volRatio2 this;
     usesPoint3 := false; freqRatio3 := freqRatio3 this;
     volRatio3 := volRatio3 this;
     defaultFreq := defaultFreq this; defaultVol := defaultVol this;
     defaultMs := defaultMs this |}.

Definition setPartB (wave : Wave) (attack : Attack) (eff : Effect)
    (freq2 vol2 ms2 : Q) (this : FlexFX) : FlexFX :=
  {| oid := oid this; id := id this;
     playPartA := playPartA this; waveA := waveA this;
     attackA := attackA this; effectA := effectA this;
     timeRatioA := timeRatioA this;
     skipPartB := skipPartB this;
     playPartB := true; waveB := wave; attackB := attack; effectB := eff;
     timeRatioB := goodTimeRatio ms2 (1 - timeRatioA this);
     playPartC := playPartC this; waveC := waveC this;
     attackC := attackC this; effectC := effectC this;
     timeRatioC := timeRatioC this;
     freqRatio0 := freqRatio0 this; volRatio0 := volRatio0 this;
     freqRatio1 := freqRatio1 this; volRatio1 := volRatio1 this;
     usesPoint2 := true; freqRatio2 := goodFreqRatio freq2;
     volRatio2 := goodVolRatio vol2;
     usesPoint3 := usesPoint3 this; freqRatio3 := freqRatio3 this;
     volRatio3 := volRatio3 this;
     defaultFreq := defaultFreq this; defaultVol := defaultVol this;
     defaultMs := defaultMs this |}.

Definition silentPartB (freq2 vol2 ms2 : Q) (this : FlexFX) : FlexFX :=
  {| oid := oid this; id := id this;
     playPartA := playPartA this; waveA := waveA this;
     attackA := attackA this; effectA := effectA this;
     timeRatioA := timeRatioA this;
     skipPartB := true;
     playPartB := playPartB this; waveB := waveB this;
     attackB := attackB this; effectB := effectB this;
     timeRatioB := goodTimeRatio ms2 (1 - timeRatioA this);
     playPartC := playPartC this; waveC := waveC this;
     attackC := attackC this; effectC := effectC this;
     timeRatioC := timeRatioC this;
     freqRatio0 := freqRatio0 this; volRatio0 := volRatio0 this;
     freqRatio1 := freqRatio1 this; volRatio1 := volRatio1 this;
     usesPoint2 := usesPoint2 this; freqRatio2 := goodFreqRatio freq2;
     volRatio2 := goodVolRatio vol2;
     usesPoint3 := usesPoint3 this; freqRatio3 := freqRatio3 this;
     volRatio3 := volRatio3 this;
     defaultFreq := defaultFreq this; defaultVol := defaultVol this;
     defaultMs := defaultMs this |}.

Definition setPartC (wave : Wave) (attack : Attack) (eff : Effect)
    (freq3 vol3 ms3 : Q) (this : FlexFX) : FlexFX :=
  {| oid := oid this; id := id this;
     playPartA := playPartA this; waveA := waveA this;
     attackA := attackA this; effectA := effectA this;
     timeRatioA := timeRatioA this;
     skipPartB := skipPartB this;
     playPartB := playPartB this; waveB := waveB this;
     attackB := attackB this; effectB := effectB this;
     timeRatioB := timeRatioB this;
     playPartC := true; waveC := wave; attackC := attack; effectC := eff;
     timeRatioC := goodTimeRatio ms3 (1 - timeRatioA this - timeRatioB this);
     freqRatio0 := freqRatio0 this; volRatio0 := volRatio0 this;
     freqRatio1 := freqRatio1 this; volRatio1 := volRatio1 this;
     usesPoint2 := true; freqRatio2 := freqRatio2 this;
     volRatio2 := volRatio2 this;
     usesPoint3 := true; freqRatio3 := goodFreqRatio freq3;
     volRatio3 := goodVolRatio vol3;
     defaultFreq := defaultFreq this; defaultVol := defaultVol this;
     defaultMs := defaultMs this |}.

Definition setDefaults (freq vol ms : Q) (this : FlexFX) : FlexFX :=
  {| oid := oid this; id := id this;
     playPartA := playPartA this; waveA := waveA this;
     attackA := attackA this; effectA := effectA this;
     timeRatioA := timeRatioA this;
     skipPartB := skipPartB this;
     playPartB := playPartB this; waveB := waveB this;
     attackB := attackB this; effectB := effectB this;
     timeRatioB := timeRatioB this;
     playPartC := playPartC this; waveC := waveC this;
     attackC := attackC this; effectC := effectC this;
     timeRatioC := timeRatioC this;
     freqRatio0 := freqRatio0 this; volRatio0 := volRatio0 this;
     freqRatio1 := freqRatio1 this; volRatio1 := volRatio1 this;
     usesPoint2 := usesPoint2 this; freqRatio2 := freqRatio2 this;
     volRatio2 := volRatio2 this;
     usesPoint3 := usesPoint3 this; freqRatio3 := freqRatio3 this;
     volRatio3 := volRatio3 this;
     defaultFreq := freq; defaultVol := vol; defaultMs := ms |}.

(** [target.id = i] *)
Definition set_id (i : option string) (this : FlexFX) : FlexFX :=
  {| oid := oid this; id := i;
     playPartA := playPartA this; waveA := waveA this;
     attackA := attackA this; effectA := effectA this;
     timeRatioA := timeRatioA this;
     skipPartB := skipPartB this;
     playPartB := playPartB this; waveB := waveB this;
     attackB := attackB this; effectB := effectB this;
     timeRatioB := timeRatioB this;
     playPartC := playPartC this; waveC := waveC this;
     attackC := attackC this; effectC := effectC this;
     timeRatioC := timeRatioC this;
     freqRatio0 := freqRatio0 this; volRatio0 := volRatio0 this;
     freqRatio1 := freqRatio1 this; volRatio1 := volRatio1 this;
     usesPoint2 := usesPoint2 this; freqRatio2 := freqRatio2 this;
     volRatio2 := volRatio2 this;
     usesPoint3 := usesPoint3 this; freqRatio3 := freqRatio3 this;
     volRatio3 := volRatio3 this;
     defaultFreq := defaultFreq this; defaultVol := defaultVol this;
     defaultMs := defaultMs this |}.

(** ** The profile compiler *)

Local Open Scope Q_scope.

(** The [play] that [compilePlay] has built when it reaches its last line. *)
Definition compiledPlay (this : FlexFX) (freq vol ms : Q) : Play :=
  let freq := if Qeq_bool freq 0 then defaultFreq this else freq in
  let vol := if Qeq_bool vol 0 then defaultVol this else vol in
  let ms := if Qeq_bool ms 0 then defaultMs this else ms in
  let f0 := freq * freqRatio0 this in
  let v0 := vol * volRatio0 this in
  let f1 := freq * freqRatio1 this in
  let v1 := vol * volRatio1 this in
  let ms1 := ms * timeRatioA this in
  let f2 := if usesPoint2 this then freq * freqRatio2 this else 0 in
  let v2 := if usesPoint2 this then vol * volRatio2 this else 0 in
  let ms2 := if usesPoint2 this then ms * timeRatioB this else 0 in
  let f3 := if usesPoint3 this then freq * freqRatio3 this else 0 in
  let v3 := if usesPoint3 this then vol * volRatio3 this else 0 in
  let ms3 := if usesPoint3 this then ms * timeRatioC this else 0 in
  let partA :=
    if playPartA this
    then [Sound (createSoundEffect (waveA this) f0 f1 v0 v1 ms1
                   (effectA this) (attackA this))]
    else [] in
  let partB :=
    if playPartB this
    then [Sound (createSoundEffect (waveB this) f1 f2 v1 v2 ms2
                   (effectB this) (attackB this))]
    else if skipPartB this
    then [Tagged ("_" ++ convertToText (Qfloor (ms * timeRatioB this)))]
    else [] in
  let partC :=
    if playPartC this
    then [Sound (createSoundEffect (waveC this) f2 f3 v2 v3 ms3
                   (effectC this) (attackC this))]
    else [] in
  mkPlay (partA ++ partB ++ partC).

Local Close Scope Q_scope.

(** ** Module state and the command monad *)

Record State : Set := mkState {
  playList : list Play;
  playerPlaying : bool;
  playerActive : bool;
  playerStopped : bool;
  flexFXList : list FlexFX;
  nextOid : nat              (* objects allocated so far *)
}.

(** Calls into the runtime, in the order they are made. [WaitForEvent],
    [Pause] and [PlaySoundEffect] block the calling fiber. *)
Inductive Call : Set :=
| RaiseEvent (e : PLAYER)
| WaitForEvent (e : PLAYER)
| InBackground
| Pause (ms : option Z)
| PlaySoundEffect (sound : Part).

Definition Cmd (A : Type) : Type := State -> A * State * list Call.

Definition ret {A : Type} (a : A) : Cmd A := fun s => (a, s, []).

Definition bind {A B : Type} (c : Cmd A) (k : A -> Cmd B) : Cmd B :=
  fun s =>
    let '(a, s1, t1) := c s in
    let '(b, s2, t2) := k a s1 in
    (b, s2, t1 ++ t2).

Notation "x <- c ;; k" := (bind c (fun x => k))
  (at level 61, c at next level, right associativity).
Notation "c ;; k" := (bind c (fun _ => k))
  (at level 61, right associativity).

Definition get : Cmd State := fun s => (s, s, []).

Definition call (c : Call) : Cmd unit := fun s => (tt, s, [c]).

Definition set_playList (l : list Play) : Cmd unit :=
  fun s => (tt, mkState l (playerPlaying s) (playerActive s)
                  (playerStopped s) (flexFXList s) (nextOid s), []).

Definition set_playerPlaying (b : bool) : Cmd unit :=
  fun s => (tt, mkState (playList s) b (playerActive s)
                  (playerStopped s) (flexFXList s) (nextOid s), []).

Definition set_playerActive (b : bool) : Cmd unit :=
  fun s => (tt, mkState (playList s) (playerPlaying s) b
                  (playerStopped s) (flexFXList s) (nextOid s), []).

Definition set_playerStopped (b : bool) : Cmd unit :=
  fun s => (tt, mkState (playList s) (playerPlaying s) (playerActive s)
                  b (flexFXList s) (nextOid s), []).

Definition set_flexFXList (l : list FlexFX) : Cmd unit :=
  fun s => (tt, mkState (playList s) (playerPlaying s) (playerActive s)
                  (playerStopped s) l (nextOid s), []).

(** [new FlexFX(id)]: a fresh object. *)
Definition new (i : string) : Cmd FlexFX :=
  fun s => (new_FlexFX (nextOid s) i,
            mkState (playList s) (playerPlaying s) (playerActive s)
              (playerStopped s) (flexFXList s) (S (nextOid s)), []).

Definition state_of {A : Type} (r : A * State * list Call) : State :=
  snd (fst r).

Definition calls_of {A : Type} (r : A * State * list Call) : list Call :=
  snd r.

Definition value_of {A : Type} (r : A * State * list Call) : A :=
  fst (fst r).

(** [playList.push(play)], the last line of [compilePlay]. *)
Definition compilePlay (this : FlexFX) (freq vol ms : Q) : Cmd unit :=
  s <- get ;;
  set_playList (playList s ++ [compiledPlay this freq vol ms]).

(** ** The recipe registry *)

(** [a === b] on ids *)
Definition id_eqb (a b : option string) : bool :=
  match a, b with
  | Some x, Some y => String.eqb x y
  | None, None => true
  | _, _ => false
  end.

(** [flexFXList.find(i => i.id === x)] *)
Definition find_id (x : option string) (l : list FlexFX) : option FlexFX :=
  List.find (fun i => id_eqb (id i) x) l.

Fixpoint indexOf_scan (same : FlexFX -> bool) (l : list FlexFX)
    (i from : Z) : Z :=
  match l with
  | [] => -1
  | y :: t =>
      if (from <=? i) && same y then i else indexOf_scan same t (i + 1) from
  end.

(** [l.indexOf(x, fromIndex)]: elements are compared by reference;
    [undefined] ([None]) is no element of the list. *)
Definition indexOf (x : option FlexFX) (fromIndex : Z) (l : list FlexFX) : Z :=
  let len := Z.of_nat (List.length l) in
  let from := if fromIndex <? 0 then Z.max (len + fromIndex) 0 else fromIndex in
  match x with
  | None => -1
  | Some o => indexOf_scan (fun y => Nat.eqb (oid y) (oid o)) l 0 from
  end.

(** [l.splice(start, deleteCount)], the list that remains: a negative
    [start] counts from the end of the list. *)
Definition splice {A : Type} (start deleteCount : Z) (l : list A) : list A :=
  let len := Z.of_nat (List.length l) in
  let actualStart :=
    if start <? 0 then Z.max (len + start) 0 else Z.min start len in
  let actualDeleteCount := Z.min (Z.max deleteCount 0) (len - actualStart) in
  firstn (Z.to_nat actualStart) l
    ++ skipn (Z.to_nat (actualStart + actualDeleteCount)) l.

(** [storeFlexFX] over a given [splice]. *)
Definition storeFlexFX_with
    (splice : Z -> Z -> list FlexFX -> list FlexFX)
    (builtIn : Z) (target : FlexFX) : Cmd unit :=
  s <- get ;;
  let l := flexFXList s in
  let l := splice (indexOf (find_id (id target) l) 1 l) 1 l in
  let target :=
    if builtIn <? 1000 then set_id (builtInId_at builtIn) target else target in
  set_flexFXList (l ++ [target]).

Definition storeFlexFX : Z -> FlexFX -> Cmd unit := storeFlexFX_with splice.

(** A [splice] that leaves the list alone when [start] is negative. *)
Definition splice_from_front {A : Type} (start deleteCount : Z) (l : list A)
    : list A :=
  if start <? 0 then l else splice start deleteCount l.

(** ** The background player *)

Definition activatePlayer : Cmd unit :=
  s <- get ;;
  if negb (playerActive s || playerStopped s)
  then set_playerActive true ;; call InBackground
  else ret tt.

(** Where the fiber running [player()] stands between two atomic
    stretches: about to test the outer [while]; about to test the inner
    [while] with [play.parts] as given; returned; or stopped by the
    exception of reading [charAt] of [undefined]. *)
Inductive Worker : Set :=
| AtOuterLoop
| AtInnerLoop (rest : list Part)
| Returned
| Thrown.

(** One turn of the inner loop body, after [sound = play.parts.shift()]. *)
Definition playSound (sound : Part) : Cmd unit :=
  if startsWith "_" sound
  then call (Pause (taggedLength sound))
  else call (PlaySoundEffect sound).

(** From the test of the outer [while] to the next blocking call, or to
    the end of [player()]. *)
Definition outerLoop : Cmd Worker :=
  s <- get ;;
  if (0 <? Z.of_nat (List.length (playList s))) && negb (playerStopped s)
  then
    match playList s with
    | [] => ret Thrown
    | play :: others =>
        set_playList others ;;
        match parts play with
        | [] => ret Thrown
        | sound :: rest =>
            if startsWith "s" sound
            then
              call (Pause (taggedLength sound)) ;;
              ret AtOuterLoop
            else
              call (RaiseEvent STARTING) ;;
              set_playerPlaying true ;;
              playSound sound ;;
              ret (AtInnerLoop rest)
        end
    end
  else
    s <- get ;;
    (if Z.of_nat (List.length (playList s)) =? 0
     then call (RaiseEvent ALLPLAYED)
     else ret tt) ;;
    set_playerActive false ;;
    ret Returned.

(** One atomic stretch of [player()]: it starts when the fiber is
    scheduled (at its spawn, or when a blocking call returns) and ends
    with the next blocking call or with the return. *)
Definition worker_step (w : Worker) : Cmd Worker :=
  match w with
  | AtOuterLoop => outerLoop
  | AtInnerLoop [] =>
      call (RaiseEvent FINISHED) ;;
      set_playerPlaying false ;;
      outerLoop
  | AtInnerLoop (sound :: rest) =>
      playSound sound ;;
      ret (AtInnerLoop rest)
  | Returned => ret Returned
  | Thrown => ret Thrown
  end.

(** [player()] running with no other fiber touching the state in between:
    at most [fuel] stretches. *)
Fixpoint run_player (fuel : nat) (w : Worker) : Cmd Worker :=
  match fuel with
  | O => ret w
  | S fuel' =>
      match w with
      | Returned | Thrown => ret w
      | _ => w' <- worker_step w ;; run_player fuel' w'
      end
  end.

(** ** The exported blocks *)

Definition playFlexFX (i : string) (pitch volume dur : Q) (background : bool)
    : Cmd unit :=
  s <- get ;;
  match find_id (Some i) (flexFXList s) with
  | Some target =>
      compilePlay target pitch volume dur ;;
      activatePlayer ;;
      if negb background then call (WaitForEvent ALLPLAYED) else ret tt
  | None => ret tt
  end.

Definition playBuiltInFlexFX (choice : BuiltInFlexFX) (pitch volume dur : Q)
    (background : bool) : Cmd unit :=
  match builtInId_at (BuiltInFlexFX_value choice) with
  | Some i => playFlexFX i pitch volume dur background
  | None => ret tt
  end.

Local Open Scope Q_scope.

(** The object [createFlexFX] hands to [storeFlexFX]. *)
Definition createFlexFX_target (fresh : FlexFX)
    (startPitchPercent startVolPercent : Q)
    (wave : Wave) (attack : Attack) (eff : Effect)
    (endPitchPercent endVolPercent : Q) (pitch volume dur : Q) : FlexFX :=
  setDefaults pitch volume dur
    (setPartA (startPitchPercent / 100) (startVolPercent / 100)
       wave attack eff (endPitchPercent / 100) (endVolPercent / 100) 1
       fresh).

Definition createFlexFX (i : string) (startPitchPercent startVolPercent : Q)
    (wave : Wave) (attack : Attack) (eff : Effect)
    (endPitchPercent endVolPercent : Q) (pitch volume dur : Q)
    (builtIn : Z) : Cmd unit :=
  target <- new i ;;
  storeFlexFX builtIn
    (createFlexFX_target target startPitchPercent startVolPercent
       wave attack eff endPitchPercent endVolPercent pitch volume dur).

(** The object [create2PartFlexFX] hands to [storeFlexFX]. *)
Definition create2PartFlexFX_target (fresh : FlexFX)
    (startPitchPercent startVolPercent : Q)
    (waveA : Wave) (attackA : Attack) (effectA : Effect)
    (midPitchPercent midVolPercent : Q)
    (waveB : Wave) (attackB : Attack) (effectB : Effect)
    (endPitchPercent endVolPercent timePercentA : Q)
    (pitch volume dur : Q) : FlexFX :=
  setDefaults pitch volume dur
    (setPartB waveB attackB effectB
       (endPitchPercent / 100) (endVolPercent / 100)
       (100 - timePercentA / 100)
       (setPartA (startPitchPercent / 100) (startVolPercent / 100)
          waveA attackA effectA
          (midPitchPercent / 100) (midVolPercent / 100) (timePercentA / 100)
          fresh)).

Definition create2PartFlexFX (i : string)
    (startPitchPercent startVolPercent : Q)
    (waveA : Wave) (attackA : Attack) (effectA : Effect)
    (midPitchPercent midVolPercent : Q)
    (waveB : Wave) (attackB : Attack) (effectB : Effect)
    (endPitchPercent endVolPercent timePercentA : Q)
    (pitch volume dur : Q) (builtIn : Z) : Cmd unit :=
  target <- new i ;;
  storeFlexFX builtIn
    (create2PartFlexFX_target target startPitchPercent startVolPercent
       waveA attackA effectA midPitchPercent midVolPercent
       waveB attackB effectB endPitchPercent endVolPercent timePercentA
       pitch volume dur).

(** The object [create3PartFlexFX] hands to [storeFlexFX]. *)
Definition create3PartFlexFX_target (fresh : FlexFX)
    (startPitchPercent startVolPercent : Q)
    (waveA : Wave) (attackA : Attack) (effectA : Effect)
    (pitchABPercent volABPercent : Q)
    (waveB : Wave) (attackB : Attack) (effectB : Effect)
    (pitchBCPercent volBCPercent : Q)
    (waveC : Wave) (attackC : Attack) (effectC : Effect)
    (endPitchPercent endVolPercent : Q)
    (timePercentA timePercentB : Q) (pitch volume dur : Q) : FlexFX :=
  setDefaults pitch volume dur
    (setPartC waveC attackC effectC
       (endPitchPercent / 100) (endVolPercent / 100)
       ((100 - timePercentA - timePercentB) / 100)
       (setPartB waveB attackB effectB
          (pitchBCPercent / 100) (volBCPercent / 100) (timePercentB / 100)
          (setPartA (startPitchPercent / 100) (startVolPercent / 100)
             waveA attackA effectA
             (pitchABPercent / 100) (volABPercent / 100)
             (timePercentA / 100)
             fresh))).

Definition create3PartFlexFX (i : string)
    (startPitchPercent startVolPercent : Q)
    (waveA : Wave) (attackA : Attack) (effectA : Effect)
    (pitchABPercent volABPercent : Q)
    (waveB : Wave) (attackB : Attack) (effectB : Effect)
    (pitchBCPercent volBCPercent : Q)
    (waveC : Wave) (attackC : Attack) (effectC : Effect)
    (endPitchPercent endVolPercent : Q)
    (timePercentA timePercentB : Q) (pitch volume dur : Q)
    (builtIn : Z) : Cmd unit :=
  target <- new i ;;
  storeFlexFX builtIn
    (create3PartFlexFX_target target startPitchPercent startVolPercent
       waveA attackA effectA pitchABPercent volABPercent
       waveB attackB effectB pitchBCPercent volBCPercent
       waveC attackC effectC endPitchPercent endVolPercent
       timePercentA timePercentB pitch volume dur).

(** The object [createDoubleFlexFX] hands to [storeFlexFX]. *)
Definition createDoubleFlexFX_target (fresh : FlexFX)
    (startPitchAPercent startVolAPercent : Q)
    (waveA : Wave) (attackA : Attack) (effectA : Effect)
    (endPitchAPercent endVolAPercent : Q)
    (startPitchBPercent startVolBPercent : Q)
    (waveB : Wave) (attackB : Attack) (effectB : Effect)
    (endPitchBPercent endVolBPercent : Q)
    (timePercentA timeGapPercent : Q) (pitch volume dur : Q) : FlexFX :=
  setDefaults pitch volume dur
    (setPartC waveB attackB effectB
       (endPitchBPercent / 100) (endVolBPercent / 100)
       ((100 - timePercentA - timeGapPercent) / 100)
       (silentPartB (startPitchBPercent / 100) (startVolBPercent / 100)
          (timeGapPercent / 100)
          (setPartA (startPitchAPercent / 100) (startVolAPercent / 100)
             waveA attackA effectA
             (endPitchAPercent / 100) (endVolAPercent / 100)
             (timePercentA / 100)
             fresh))).

Definition createDoubleFlexFX (i : string)
    (startPitchAPercent startVolAPercent : Q)
    (waveA : Wave) (attackA : Attack) (effectA : Effect)
    (endPitchAPercent endVolAPercent : Q)
    (startPitchBPercent startVolBPercent : Q)
    (waveB : Wave) (attackB : Attack) (effectB : Effect)
    (endPitchBPercent endVolBPercent : Q)
    (timePercentA timeGapPercent : Q) (pitch volume dur : Q)
    (builtIn : Z) : Cmd unit :=
  target <- new i ;;
  storeFlexFX builtIn
    (createDoubleFlexFX_target target startPitchAPercent startVolAPercent
       waveA attackA effectA endPitchAPercent endVolAPercent
       startPitchBPercent startVolBPercent
       waveB attackB effectB endPitchBPercent endVolBPercent
       timePercentA timeGapPercent pitch volume dur).

Local Close Scope Q_scope.

Definition performSilence (ms : Q) : Cmd unit :=
  s <- get ;;
  set_playList
    (playList s ++ [mkPlay [Tagged ("s" ++ convertToText (Qfloor ms))]]) ;;
  activatePlayer.

Definition awaitPlayStart : Cmd unit :=
  s <- get ;;
  if 0 <=? Z.of_nat (List.length (playList s))
  then
    set_playerStopped false ;;
    activatePlayer ;;
    call (WaitForEvent STARTING)
  else ret tt.

Definition awaitPlayFinish : Cmd unit :=
  s <- get ;;
  if playerPlaying s then call (WaitForEvent FINISHED) else ret tt.

Definition awaitAllFinished : Cmd unit :=
  s <- get ;;
  if 0 <=? Z.of_nat (List.length (playList s))
  then
    set_playerStopped false ;;
    activatePlayer ;;
    call (WaitForEvent ALLPLAYED)
  else ret tt.

Definition waitingToPlay : Cmd Z :=
  s <- get ;;
  ret (Z.of_nat (List.length (playList s))).

Definition stopPlaying : Cmd unit := set_playerStopped true.

Definition startPlaying : Cmd unit :=
  set_playerStopped false ;;
  activatePlayer.

(** [while (playList.length > 0) { playList.pop() }] *)
Definition deletePlaylist : Cmd unit :=
  s <- get ;;
  set_playList (Nat.iter (List.length (playList s)) (@removelast Play) (playList s)).

(** ** Module initialisation *)

(** The state when the module starts to load. *)
Definition empty_state : State := mkState [] false false false [] 0.

Local Open Scope Q_scope.

(** The four creations at the end of the namespace. *)
Definition populate : Cmd unit :=
  create2PartFlexFX "" 70 50
    SAWTOOTH MEDIUM NONE 100 100
    SAWTOOTH SLOW NONE 90 80 30
    900 255 1000 (BuiltInFlexFX_value MIAOW) ;;
  create2PartFlexFX "" 5 50
    SAWTOOTH FAST NONE 100 100
    SINE SLOW NONE 100 80 7
    250 255 500 (BuiltInFlexFX_value HORN) ;;
  createDoubleFlexFX ""
    95 80 SAWTOOTH SLOW NONE 100 100
    70 100 SAWTOOTH SLOW NONE 75 80 45 10
    800 200 1000 (BuiltInFlexFX_value SIREN) ;;
  create3PartFlexFX "" 1 100
    SAWTOOTH FAST NONE 100 75
    SAWTOOTH SLOW NONE 100 75
    SAWTOOTH SLOW NONE 10 100 10 85
    440 200 500 (BuiltInFlexFX_value VIOLIN).

Local Close Scope Q_scope.

Definition initial_state : State := state_of (populate empty_state).

(** ** Notions the properties are stated with *)

(** The recipes the creation blocks build: the object one of the four
    blocks hands to [storeFlexFX], under any id that [storeFlexFX] then
    gives it. *)
Inductive Built : FlexFX -> Prop :=
| Built_simple o i sp sv w a e ep ev pitch volume dur :
    Built (createFlexFX_target (new_FlexFX o i)
             sp sv w a e ep ev pitch volume dur)
| Built_2part o i sp sv wA aA eA mp mv wB aB eB ep ev tpA pitch volume dur :
    Built (create2PartFlexFX_target (new_FlexFX o i)
             sp sv wA aA eA mp mv wB aB eB ep ev tpA pitch volume dur)
| Built_3part o i sp sv wA aA eA pAB vAB wB aB eB pBC vBC wC aC eC ep ev
    tpA tpB pitch volume dur :
    Built (create3PartFlexFX_target (new_FlexFX o i)
             sp sv wA aA eA pAB vAB wB aB eB pBC vBC wC aC eC ep ev
             tpA tpB pitch volume dur)
| Built_double o i spA svA wA aA eA epA evA spB svB wB aB eB epB evB
    tpA tgap pitch volume dur :
    Built (createDoubleFlexFX_target (new_FlexFX o i)
             spA svA wA aA eA epA evA spB svB wB aB eB epB evB
             tpA tgap pitch volume dur)
| Built_set_id r i :
    Built r -> Built (set_id i r).

Local Open Scope Q_scope.


(** How long the player stays on one element of [parts]: the duration a
    sound was compiled with, or the length read back from a tagged pause
    ([None] when no number can be read). *)
Definition partDuration (p : Part) : option Q :=
  match p with
  | Sound se => Some (duration se)
  | Tagged _ => option_map inject_Z (taggedLength p)
  end.


(** The base value of a performance on one axis: the argument, the
    recipe's default when the argument is zero. *)
Definition orDefault (x default : Q) : Q :=
  if Qeq_bool x 0 then default else x.

(** The Play of a recipe scaled by given base values [freq], [vol] and
    [ms], with no defaulting: point [k] is at
    [(freq * freqRatio_k, vol * volRatio_k)], a part lasts [ms] times its
    time ratio, and part [k] runs from point [k-1] to point [k]. *)
Definition scaledPlay (this : FlexFX) (freq vol ms : Q) : Play :=
  let point0 := (freq * freqRatio0 this, vol * volRatio0 this) in
  let point1 := (freq * freqRatio1 this, vol * volRatio1 this) in
  let point2 :=
    if usesPoint2 this
    then (freq * freqRatio2 this, vol * volRatio2 this) else (0, 0) in
  let point3 :=
    if usesPoint3 this
    then (freq * freqRatio3 this, vol * volRatio3 this) else (0, 0) in
  let sound w from to ms e a :=
    Sound (createSoundEffect w (fst from) (fst to) (snd from) (snd to)
             ms e a) in
  mkPlay
    ((if playPartA this
      then [sound (waveA this) point0 point1 (ms * timeRatioA this)
              (effectA this) (attackA this)]
      else [])
     ++ (if playPartB this
         then [sound (waveB this) point1 point2
                 (if usesPoint2 this then ms * timeRatioB this else 0)
                 (effectB this) (attackB this)]
         else if skipPartB this
         then [Tagged ("_" ++ convertToText (Qfloor (ms * timeRatioB this)))]
         else [])
     ++ (if playPartC this
         then [sound (waveC this) point2 point3
                 (if usesPoint3 this then ms * timeRatioC this else 0)
                 (effectC this) (attackC this)]
         else [])).

Local Close Scope Q_scope.

(** The blocking call the inner loop makes for one element of [parts]. *)
Definition partCall (p : Part) : Call :=
  if startsWith "_" p then Pause (taggedLength p) else PlaySoundEffect p.

(** The calls one Play gives rise to when the player takes it off the
    play-list and plays it to its end. *)
Definition playCalls (play : Play) : list Call :=
  match parts play with
  | [] => []
  | sound :: rest =>
      if startsWith "s" sound
      then [Pause (taggedLength sound)]
      else
        [RaiseEvent STARTING]
          ++ map partCall (sound :: rest)
          ++ [RaiseEvent FINISHED]
  end.

(** Stretches the player needs for one Play. *)
Definition playSteps (play : Play) : nat :=
  match parts play with
  | [] => 1
  | sound :: rest => if startsWith "s" sound then 1 else S (List.length rest)
  end.

(** Stretches the player needs to drain a play-list and return. *)
Definition drainSteps (l : list Play) : nat :=
  S (list_sum (map playSteps l)).

(** ** Fibers *)

(** A call of an exported block, as some fiber of the program may make it. *)
Inductive Block : Set :=
| B_playFlexFX (i : string) (pitch volume dur : Q) (background : bool)
| B_playBuiltInFlexFX (choice : BuiltInFlexFX) (pitch volume dur : Q)
    (background : bool)
| B_createFlexFX (i : string) (sp sv : Q) (w : Wave) (a : Attack)
    (e : Effect) (ep ev pitch volume dur : Q) (builtIn : Z)
| B_create2PartFlexFX (i : string) (sp sv : Q)
    (wA : Wave) (aA : Attack) (eA : Effect) (mp mv : Q)
    (wB : Wave) (aB : Attack) (eB : Effect) (ep ev tpA : Q)
    (pitch volume dur : Q) (builtIn : Z)
| B_create3PartFlexFX (i : string) (sp sv : Q)
    (wA : Wave) (aA : Attack) (eA : Effect) (pAB vAB : Q)
    (wB : Wave) (aB : Attack) (eB : Effect) (pBC vBC : Q)
    (wC : Wave) (aC : Attack) (eC : Effect) (ep ev : Q)
    (tpA tpB : Q) (pitch volume dur : Q) (builtIn : Z)
| B_createDoubleFlexFX (i : string) (spA svA : Q)
    (wA : Wave) (aA : Attack) (eA : Effect) (epA evA : Q) (spB svB : Q)
    (wB : Wave) (aB : Attack) (eB : Effect) (epB evB : Q)
    (tpA tgap : Q) (pitch volume dur : Q) (builtIn : Z)
| B_performSilence (ms : Q)
| B_awaitPlayStart
| B_awaitPlayFinish
| B_awaitAllFinished
| B_waitingToPlay
| B_stopPlaying
| B_startPlaying
| B_deletePlaylist.

Definition exec (b : Block) : Cmd unit :=
  match b with
  | B_playFlexFX i pitch volume dur background =>
      playFlexFX i pitch volume dur background
  | B_playBuiltInFlexFX choice pitch volume dur background =>
      playBuiltInFlexFX choice pitch volume dur background
  | B_createFlexFX i sp sv w a e ep ev pitch volume dur builtIn =>
      createFlexFX i sp sv w a e ep ev pitch volume dur builtIn
  | B_create2PartFlexFX i sp sv wA aA eA mp mv wB aB eB ep ev tpA
      pitch volume dur builtIn =>
      create2PartFlexFX i sp sv wA aA eA mp mv wB aB eB ep ev tpA
        pitch volume dur builtIn
  | B_create3PartFlexFX i sp sv wA aA eA pAB vAB wB aB eB pBC vBC
      wC aC eC ep ev tpA tpB pitch volume dur builtIn =>
      create3PartFlexFX i sp sv wA aA eA pAB vAB wB aB eB pBC vBC
        wC aC eC ep ev tpA tpB pitch volume dur builtIn
  | B_createDoubleFlexFX i spA svA wA aA eA epA evA spB svB wB aB eB
      epB evB tpA tgap pitch volume dur builtIn =>
      createDoubleFlexFX i spA svA wA aA eA epA evA spB svB wB aB eB
        epB evB tpA tgap pitch volume dur builtIn
  | B_performSilence ms => performSilence ms
  | B_awaitPlayStart => awaitPlayStart
  | B_awaitPlayFinish => awaitPlayFinish
  | B_awaitAllFinished => awaitAllFinished
  | B_waitingToPlay => waitingToPlay ;; ret tt
  | B_stopPlaying => stopPlaying
  | B_startPlaying => startPlaying
  | B_deletePlaylist => deletePlaylist
  end.

Definition is_InBackground (c : Call) : bool :=
  match c with InBackground => true | _ => false end.

(** The player fibers a list of calls starts: one per
    [control.inBackground(() => player())]. *)
Definition spawned (calls : list Call) : list Worker :=
  map (fun _ => AtOuterLoop) (filter is_InBackground calls).

(** A player fiber that has returned or thrown is gone. *)
Definition alive (w : Worker) : list Worker :=
  match w with
  | Returned | Thrown => []
  | _ => [w]
  end.

(** The module variables together with the player fibers alive. *)
Definition System : Set := State * list Worker.

(** The scheduler lets some fiber run one atomic stretch: a fiber of the
    program runs a block (up to its return or its blocking wait), or a
    player fiber runs from one blocking call to the next. *)
Inductive sys_step : System -> System -> Prop :=
| step_block (b : Block) (s : State) (ws : list Worker) :
    sys_step (s, ws)
      (state_of (exec b s), ws ++ spawned (calls_of (exec b s)))
| step_player (s : State) (before after : list Worker) (w : Worker) :
    sys_step (s, before ++ w :: after)
      (state_of (worker_step w s),
       before ++ alive (value_of (worker_step w s)) ++ after).

Inductive reachable : System -> Prop :=
| reachable_start : reachable (empty_state, [])
| reachable_step (x y : System) :
    reachable x -> sys_step x y -> reachable y.

(** What a stretch of the player leaves in the flags. *)
Definition flags_after (w : Worker) (s : State) : Prop :=
  match w with
  | AtOuterLoop => playerActive s = true /\ playerPlaying s = false
  | AtInnerLoop _ => playerActive s = true /\ playerPlaying s = true
  | Returned | Thrown => playerPlaying s = false
  end.

(** What the flags say about the player fibers: there is at most one;
    [playerPlaying] is set exactly while it is inside a Play that counts;
    [playerActive] is set while it is alive. *)
Definition flags_agree (x : System) : Prop :=
  match snd x with
  | [] => playerPlaying (fst x) = false
  | [AtOuterLoop] =>
      playerActive (fst x) = true /\ playerPlaying (fst x) = false
  | [AtInnerLoop _] =>
      playerActive (fst x) = true /\ playerPlaying (fst x) = true
  | _ => False
  end.

(** ** Recipes and states used as examples *)

Local Open Scope Q_scope.

(** The built-in "violin" (three sounding parts), "siren" (two sounds
    around a silent gap) and "miaow" (two sounding parts) as the namespace
    builds them, and a one-part "ting". *)
Definition violin : FlexFX :=
  set_id (Some "violin"%string)
    (create3PartFlexFX_target (new_FlexFX 3 "")
       1 100 SAWTOOTH FAST NONE 100 75 SAWTOOTH SLOW NONE 100 75
       SAWTOOTH SLOW NONE 10 100 10 85 440 200 500).

Definition siren : FlexFX :=
  set_id (Some "siren"%string)
    (createDoubleFlexFX_target (new_FlexFX 2 "")
       95 80 SAWTOOTH SLOW NONE 100 100
       70 100 SAWTOOTH SLOW NONE 75 80 45 10 800 200 1000).

Definition miaow : FlexFX :=
  set_id (Some "miaow"%string)
    (create2PartFlexFX_target (new_FlexFX 0 "")
       70 50 SAWTOOTH MEDIUM NONE 100 100
       SAWTOOTH SLOW NONE 90 80 30 900 255 1000).

Definition ting : FlexFX :=
  createFlexFX_target (new_FlexFX 4 "ting")
    100 100 TRIANGLE FAST NONE 90 80 800 200 400.

(** The registry holding the "violin" alone, nothing queued. *)
Definition violin_only : State := mkState [] false false false [violin] 4.

(** Two one-part recipes, "a" and "b", and a second recipe called "a". *)
Definition recipe_a : FlexFX :=
  createFlexFX_target (new_FlexFX 0 "a")
    100 100 SINE SLOW NONE 100 100 440 200 500.

Definition recipe_b : FlexFX :=
  createFlexFX_target (new_FlexFX 1 "b")
    100 100 SQUARE SLOW NONE 50 100 440 200 500.

Definition recipe_a2 : FlexFX :=
  createFlexFX_target (new_FlexFX 2 "a")
    100 100 NOISE FAST NONE 200 100 880 200 250.


Definition registry_ab : State :=
  mkState [] false false false [recipe_a; recipe_b] 2.

(** The state once a first block has queued a pause of 1500 ms. *)
Definition silence_queued : State :=
  state_of (performSilence 1500 empty_state).

Local Close Scope Q_scope.

(** ** Further notions *)

Local Open Scope Q_scope.

(** The frequencies a compiled sound runs between; a tagged pause has
    none. *)
Definition partFrequencies (p : Part) : option (Q * Q) :=
  match p with
  | Sound se => Some (startFrequency se, endFrequency se)
  | Tagged _ => None
  end.

(** The volumes a compiled sound runs between. *)
Definition partVolumes (p : Part) : option (Q * Q) :=
  match p with
  | Sound se => Some (startVolume se, endVolume se)
  | Tagged _ => None
  end.

(** A part whose duration can be read and lies between 0 and [ms]. *)
Definition partWithin (ms : Q) (p : Part) : Prop :=
  exists d, partDuration p = Some d /\ 0 <= d /\ d <= ms.

(** A frequency ratio and a volume ratio as the setters may store them. *)
Definition goodPoint (freqRatio volRatio : Q) : Prop :=
  (0 <= freqRatio /\ freqRatio <= 2000) /\ (0 <= volRatio /\ volRatio <= 100).

Local Close Scope Q_scope.

(** A state in which playing has been stopped while the player is inside
    a Play, a pause of 1500 ms still queued; and the same state before the
    stop, the player at the test of its outer loop. *)
Definition stopped_in_play : State :=
  mkState [mkPlay [Tagged "s1500"]] true true true [] 0.

Definition stopped_between_plays : State :=
  mkState [mkPlay [Tagged "s1500"]] false true true [] 0.



(** A part that is a tagged pause, or a sound whose frequencies lie within
    0..[2000 * freq] and whose volumes lie within 0..[100 * vol]. *)
Definition soundWithin (freq vol : Q) (p : Part) : Prop :=
  match p with
  | Tagged _ => True
  | Sound se =>
      (0 <= startFrequency se /\ startFrequency se <= 2000 * freq)%Q
      /\ (0 <= endFrequency se /\ endFrequency se <= 2000 * freq)%Q
      /\ (0 <= startVolume se /\ startVolume se <= 100 * vol)%Q
      /\ (0 <= endVolume se /\ endVolume se <= 100 * vol)%Q
  end.

(** The player has something it can play in every queued Play, every
    stored recipe was built by a creation block, the flags agree with the
    player fibers, and [playerActive] is clear when there is none. *)
Definition healthy (x : System) : Prop :=
  flags_agree x
  /\ Forall Built (flexFXList (fst x))
  /\ Forall (fun play => parts play <> []) (playList (fst x))
  /\ (snd x = [] -> playerActive (fst x) = false).

(** ** Facts about texts *)

Example convertToText_negative : convertToText (-33) = "-33"%string.
Proof. reflexivity. Qed.

Example parseInt_prefix : parseInt "400ms" = Some 400.
Proof. reflexivity. Qed.

Example parseInt_no_digit : parseInt "ms" = None.
Proof. reflexivity. Qed.

Example taggedLength_gap : taggedLength (Tagged "_33") = Some 33.
Proof. reflexivity. Qed.

Lemma parseDigits_some (d : Decimal.uint) (acc : Z) :
  parseDigits (NilEmpty.string_of_uint d) (Some acc) = Some (digitsValue d acc).
Proof.
  revert acc; induction d; intros acc; simpl; try reflexivity; apply IHd.
Qed.

Lemma parseDigits_none (d : Decimal.uint) :
  d <> Decimal.Nil ->
  parseDigits (NilEmpty.string_of_uint d) None = Some (digitsValue d 0).
Proof.
  destruct d; intros Hd; try congruence; simpl; apply parseDigits_some.
Qed.

Lemma digitsValue_acc (d : Decimal.uint) (p : positive) :
  digitsValue d (Z.pos p) = Z.pos (Pos.of_uint_acc d p).
Proof.
  revert p; induction d; intros p; cbn [digitsValue Pos.of_uint_acc];
    try reflexivity; rewrite <- IHd; f_equal; lia.
Qed.

Lemma digitsValue_of_uint (d : Decimal.uint) :
  digitsValue d 0 = Z.of_uint d.
Proof.
  unfold Z.of_uint.
  induction d; cbn [digitsValue Pos.of_uint Z.of_N]; try reflexivity;
    try assumption; apply digitsValue_acc.
Qed.

Lemma parseDigits_string_of_uint (d : Decimal.uint) :
  parseDigits (NilZero.string_of_uint d) None = Some (Z.of_uint d).
Proof.
  destruct d; try reflexivity;
    unfold NilZero.string_of_uint;
    (rewrite parseDigits_none by discriminate);
    f_equal; apply digitsValue_of_uint.
Qed.

Lemma string_of_uint_head (d : Decimal.uint) :
  exists c t, NilZero.string_of_uint d = String c t /\
              c <> "-"%char /\ c <> "+"%char.
Proof.
  destruct d; simpl; eexists; eexists; (split; [reflexivity|]);
    split; discriminate.
Qed.

(** Round trip: what [convertToText] prints, [parseInt] reads back. *)
Lemma parseInt_convertToText (z : Z) :
  parseInt (convertToText z) = Some z.
Proof.
  unfold convertToText.
  rewrite <- (DecimalZ.of_to z) at 2.
  destruct (Z.to_int z) as [d|d]; simpl.
  - destruct (string_of_uint_head d) as (c & t & E & H1 & H2).
    assert (P := parseDigits_string_of_uint d).
    rewrite E in *. unfold parseInt.
    destruct c as [[|] [|] [|] [|] [|] [|] [|] [|]]; try exact P; congruence.
  - rewrite parseDigits_string_of_uint. reflexivity.
Qed.


Lemma substring_all (s : string) : substring 0 (String.length s) s = s.
Proof.
  induction s as [|c s IH]; simpl; [reflexivity | now rewrite IH].
Qed.

(** A tag, then the text of an integer: the player reads the integer
    back. *)
Lemma taggedLength_tag (tag : ascii) (z : Z) :
  taggedLength (Tagged (String tag (convertToText z))) = Some z.
Proof.
  unfold taggedLength, slice. cbn [String.length substring Nat.sub].
  rewrite Nat.sub_0_r, substring_all. apply parseInt_convertToText.
Qed.

(** Split conjunctions only (never an equation of [Q], which is an
    equation of [Z] underneath). *)
Ltac split_ands := repeat match goal with |- _ /\ _ => split end.

(** ** Facts about built recipes *)

(** Read fields of a recipe given as setter calls, outermost call first,
    so that no intermediate record is ever written out. *)
Ltac unfold_targets :=
  lazy beta iota zeta delta
    [oid id playPartA waveA attackA effectA timeRatioA skipPartB
     playPartB waveB attackB effectB timeRatioB playPartC waveC attackC
     effectC timeRatioC freqRatio0 volRatio0 freqRatio1 volRatio1
     usesPoint2 freqRatio2 volRatio2 usesPoint3 freqRatio3 volRatio3
     defaultFreq defaultVol defaultMs orb
     createFlexFX_target create2PartFlexFX_target
     create3PartFlexFX_target createDoubleFlexFX_target
     setDefaults setPartC setPartB silentPartB setPartA new_FlexFX set_id].


Lemma Built_flags (r : FlexFX) :
  Built r ->
  playPartA r = true
  /\ (playPartB r = true -> usesPoint2 r = true /\ skipPartB r = false)
  /\ (playPartC r = true -> usesPoint3 r = true /\ usesPoint2 r = true)
  /\ (skipPartB r = true -> playPartC r = true).
Proof.
  induction 1; unfold_targets; try tauto; split_ands; intros; split_ands;
    congruence.
Qed.

(** ** The profile compiler *)

(** C6. [compilePlay] replaces an argument equal to 0 by the recipe's
    default for that axis and uses any other argument as it is: the Play it
    compiles is the recipe scaled by the three base values so chosen, each
    chosen from its own argument and its own default only. In particular a
    zero on one axis gives the same Play as passing that axis' default, the
    two other arguments being what they are. *)
Theorem compilePlay_defaults (this : FlexFX) (freq vol ms : Q) :
  compiledPlay this freq vol ms
    = scaledPlay this (orDefault freq (defaultFreq this))
        (orDefault vol (defaultVol this)) (orDefault ms (defaultMs this))
  /\ compiledPlay this 0 vol ms = compiledPlay this (defaultFreq this) vol ms
  /\ compiledPlay this freq 0 ms = compiledPlay this freq (defaultVol this) ms
  /\ compiledPlay this freq vol 0 = compiledPlay this freq vol (defaultMs this)
  /\ (Qeq_bool freq 0 = false -> orDefault freq (defaultFreq this) = freq)
  /\ (Qeq_bool vol 0 = false -> orDefault vol (defaultVol this) = vol)
  /\ (Qeq_bool ms 0 = false -> orDefault ms (defaultMs this) = ms).
Proof.
  split; [|split; [|split; [|split; [|split; [|split]]]]].
  - unfold compiledPlay, scaledPlay, orDefault.
    destruct (usesPoint2 this), (usesPoint3 this); reflexivity.
  - unfold compiledPlay. change (Qeq_bool 0 0) with true. cbv iota.
    destruct (Qeq_bool (defaultFreq this) 0); reflexivity.
  - unfold compiledPlay. change (Qeq_bool 0 0) with true. cbv iota.
    destruct (Qeq_bool (defaultVol this) 0); reflexivity.
  - unfold compiledPlay. change (Qeq_bool 0 0) with true. cbv iota.
    destruct (Qeq_bool (defaultMs this) 0); reflexivity.
  - unfold orDefault. now intros ->.
  - unfold orDefault. now intros ->.
  - unfold orDefault. now intros ->.
Qed.

Local Open Scope Q_scope.

(** C4. In the Play compiled from a built recipe that has a sounding part
    B, the sound of part A ends at point 1, where the sound of part B
    starts, and the sound of part B ends at point 2, where the sound of
    part C (when the recipe has one) starts; point [k] is the performance's
    frequency and volume (after defaulting) times [freqRatio_k] and
    [volRatio_k]. *)
Theorem profile_continuity (this : FlexFX) (freq vol ms : Q) :
  Built this ->
  playPartB this = true ->
  let f := orDefault freq (defaultFreq this) in
  let v := orDefault vol (defaultVol this) in
  exists a b rest,
    parts (compiledPlay this freq vol ms) = Sound a :: Sound b :: rest
    /\ endFrequency a = f * freqRatio1 this
    /\ endVolume a = v * volRatio1 this
    /\ startFrequency b = endFrequency a
    /\ startVolume b = endVolume a
    /\ endFrequency b = f * freqRatio2 this
    /\ endVolume b = v * volRatio2 this
    /\ (playPartC this = false -> rest = [])
    /\ (playPartC this = true ->
        exists c, rest = [Sound c]
                  /\ startFrequency c = endFrequency b
                  /\ startVolume c = endVolume b).
Proof.
  intros HB HpB f v.
  destruct (Built_flags this HB) as (HA & HB2 & HC & _).
  destruct (HB2 HpB) as (H2 & _).
  unfold compiledPlay. fold (orDefault freq (defaultFreq this)).
  fold (orDefault vol (defaultVol this)). fold f. fold v.
  rewrite HA, HpB, H2. cbn [app parts].
  do 3 eexists. split; [reflexivity|].
  cbn [endFrequency endVolume startFrequency startVolume].
  repeat (split; [reflexivity|]).
  split.
  - intros ->. reflexivity.
  - intros ->. eexists. split; [reflexivity|]. split; reflexivity.
Qed.

Lemma Built_violin : Built violin.
Proof. apply Built_set_id, Built_3part. Qed.

Lemma Built_siren : Built siren.
Proof. apply Built_set_id, Built_double. Qed.

Lemma Built_miaow : Built miaow.
Proof. apply Built_set_id, Built_2part. Qed.

Lemma Built_ting : Built ting.
Proof. apply Built_simple. Qed.

Lemma profile_continuity_witness :
  exists a b rest,
    parts (compiledPlay violin 0 0 333) = Sound a :: Sound b :: rest
    /\ endFrequency a = 440 * freqRatio1 violin
    /\ endVolume a = 200 * volRatio1 violin
    /\ startFrequency b = endFrequency a
    /\ startVolume b = endVolume a
    /\ endFrequency b = 440 * freqRatio2 violin
    /\ endVolume b = 200 * volRatio2 violin
    /\ (playPartC violin = false -> rest = [])
    /\ (playPartC violin = true ->
        exists c, rest = [Sound c]
                  /\ startFrequency c = endFrequency b
                  /\ startVolume c = endVolume b).
Proof.
  exact (profile_continuity violin 0 0 333 Built_violin eq_refl).
Defined.

(** A one-part recipe from 100%/100% to 90%/80%, performed at 800 Hz,
    volume 200, for 400 ms: one sound from (800, 200) to (720, 160) that
    lasts 400 ms. *)
Lemma ting_scenario :
  exists se,
    parts (compiledPlay ting 800 200 400) = [Sound se]
    /\ startFrequency se == 800 /\ startVolume se == 200
    /\ endFrequency se == 720 /\ endVolume se == 160
    /\ duration se == 400.
Proof.
  eexists. split; [reflexivity|]. split_ands; reflexivity.
Qed.

(** In a double recipe part B is silent: the sound of part A ends at
    point 1, the gap follows, and the sound of part C starts at point 2,
    which [silentPartB] has set. *)
Lemma double_profile (this : FlexFX) (freq vol ms : Q) :
  Built this ->
  skipPartB this = true ->
  let f := orDefault freq (defaultFreq this) in
  let v := orDefault vol (defaultVol this) in
  exists a gap c,
    parts (compiledPlay this freq vol ms) = [Sound a; Tagged gap; Sound c]
    /\ endFrequency a = f * freqRatio1 this
    /\ endVolume a = v * volRatio1 this
    /\ startFrequency c = f * freqRatio2 this
    /\ startVolume c = v * volRatio2 this.
Proof.
  intros HB HK f v.
  destruct (Built_flags this HB) as (HA & HB2 & HC & HS).
  assert (EC := HS HK). destruct (HC EC) as (E3 & E2).
  assert (EB : playPartB this = false).
  { destruct (playPartB this); [|reflexivity].
    destruct (HB2 eq_refl) as (_ & E). congruence. }
  unfold compiledPlay. fold (orDefault freq (defaultFreq this)).
  fold (orDefault vol (defaultVol this)). fold f. fold v.
  rewrite HA, EB, HK, EC, E2. cbn [app parts].
  do 3 eexists. split; [reflexivity|].
  cbn [endFrequency endVolume startFrequency startVolume].
  split_ands; reflexivity.
Qed.

(** ** Time ratios *)

Lemma Qmin_cases (a b : Q) :
  (Qmin a b == a /\ a <= b) \/ (Qmin a b == b /\ b <= a).
Proof.
  destruct (Q.min_spec a b) as [[H E]|[H E]]; [left|right]; split;
    try exact E; lra.
Qed.

Lemma Qmax_cases (a b : Q) :
  (Qmax a b == a /\ b <= a) \/ (Qmax a b == b /\ a <= b).
Proof.
  destruct (Q.max_spec a b) as [[H E]|[H E]]; [right|left]; split;
    try exact E; lra.
Qed.

(** Name every [Qmin] and [Qmax] of the goal and split on which argument
    it equals. *)
Ltac minmax_cases :=
  repeat match goal with
  | |- context [Qmin ?a ?b] =>
      let x := fresh "m" in let H := fresh "H" in
      pose proof (Qmin_cases a b) as H; set (x := Qmin a b) in *;
      clearbody x; destruct H as [[? ?]|[? ?]]
  | |- context [Qmax ?a ?b] =>
      let x := fresh "m" in let H := fresh "H" in
      pose proof (Qmax_cases a b) as H; set (x := Qmax a b) in *;
      clearbody x; destruct H as [[? ?]|[? ?]]
  | _ : context [Qmin ?a ?b] |- _ =>
      let x := fresh "m" in let H := fresh "H" in
      pose proof (Qmin_cases a b) as H; set (x := Qmin a b) in *;
      clearbody x; destruct H as [[? ?]|[? ?]]
  | _ : context [Qmax ?a ?b] |- _ =>
      let x := fresh "m" in let H := fresh "H" in
      pose proof (Qmax_cases a b) as H; set (x := Qmax a b) in *;
      clearbody x; destruct H as [[? ?]|[? ?]]
  end.

(** [goodTimeRatio] clamps into [0, timeLeft], for a budget that is not
    negative. *)
Lemma goodTimeRatio_range (time timeLeft : Q) :
  0 <= timeLeft ->
  0 <= goodTimeRatio time timeLeft /\ goodTimeRatio time timeLeft <= timeLeft.
Proof.
  intros H. unfold goodTimeRatio. minmax_cases; lra.
Qed.

(** A ratio within the budget is stored as it is. *)
Lemma goodTimeRatio_within (time timeLeft : Q) :
  0 <= time -> time <= timeLeft -> goodTimeRatio time timeLeft == time.
Proof.
  intros H1 H2. unfold goodTimeRatio. minmax_cases; lra.
Qed.

(** Three successive clamps, the last one offered all that the first two
    arguments leave of 1: together they use up the budget. *)
Lemma three_ratios (a b c : Q) :
  c == 1 - a - b ->
  let tA := goodTimeRatio a 1 in
  let tB := goodTimeRatio b (1 - tA) in
  let tC := goodTimeRatio c (1 - tA - tB) in
  tA + tB + tC == 1
  /\ (0 <= tA /\ tA <= 1)
  /\ (0 <= tB /\ tB <= 1 - tA)
  /\ (0 <= tC /\ tC <= 1 - tA - tB).
Proof.
  intros Hc. cbv zeta. unfold goodTimeRatio. minmax_cases; lra.
Qed.

(** [create2PartFlexFX] offers part B the ratio [100 - timePercentA / 100],
    which is never less than what part A leaves. *)
Lemma two_ratios (a : Q) :
  let tA := goodTimeRatio a 1 in
  let tB := goodTimeRatio (100 - a) (1 - tA) in
  tA + tB == 1 /\ (0 <= tA /\ tA <= 1) /\ (0 <= tB /\ tB <= 1 - tA).
Proof.
  cbv zeta. unfold goodTimeRatio. minmax_cases; lra.
Qed.

Lemma percent_rest (a b : Q) : (100 - a - b) / 100 == 1 - a / 100 - b / 100.
Proof. field. Qed.



(** With percentages within 0..100 that sum to at most 100, no clamp
    changes its argument: the three-part and the double recipe store the
    ratios they were given, the two-part recipe stores what part A leaves
    for part B. *)
Lemma exact_time_ratios (tpA tpB : Q) :
  0 <= tpA -> 0 <= tpB -> tpA + tpB <= 100 ->
  goodTimeRatio (tpA / 100) 1 == tpA / 100
  /\ goodTimeRatio (100 - tpA / 100) (1 - goodTimeRatio (tpA / 100) 1)
     == 1 - tpA / 100
  /\ goodTimeRatio (tpB / 100) (1 - goodTimeRatio (tpA / 100) 1) == tpB / 100
  /\ goodTimeRatio ((100 - tpA - tpB) / 100)
       (1 - goodTimeRatio (tpA / 100) 1
          - goodTimeRatio (tpB / 100) (1 - goodTimeRatio (tpA / 100) 1))
     == (100 - tpA - tpB) / 100.
Proof.
  intros HA HB HS.
  assert (EA : tpA / 100 == tpA * (1 # 100)) by reflexivity.
  assert (EB : tpB / 100 == tpB * (1 # 100)) by reflexivity.
  assert (EC : (100 - tpA - tpB) / 100 == (100 - tpA - tpB) * (1 # 100))
    by reflexivity.
  unfold goodTimeRatio. minmax_cases; lra.
Qed.

(** ** Durations *)

Lemma Qeq_bool_false (x y : Q) : ~ x == y -> Qeq_bool x y = false.
Proof.
  intros H. destruct (Qeq_bool x y) eqn:E; [|reflexivity].
  apply Qeq_bool_iff in E. contradiction.
Qed.

Lemma partDuration_gap (z : Z) :
  partDuration (Tagged ("_" ++ convertToText z)) = Some (inject_Z z).
Proof.
  unfold partDuration. change ("_" ++ convertToText z)%string
    with (String "_" (convertToText z)).
  now rewrite taggedLength_tag.
Qed.




Local Close Scope Q_scope.

(** ** Commands *)

Ltac run_cmd :=
  unfold exec, playBuiltInFlexFX, playFlexFX, compilePlay, performSilence,
    createFlexFX, create2PartFlexFX, create3PartFlexFX, createDoubleFlexFX,
    storeFlexFX, storeFlexFX_with, new,
    awaitPlayStart, awaitPlayFinish, awaitAllFinished, waitingToPlay,
    stopPlaying, startPlaying, deletePlaylist, activatePlayer,
    set_playList, set_playerPlaying, set_playerActive, set_playerStopped,
    set_flexFXList, bind, get, call, ret;
  cbn [fst snd state_of calls_of value_of app
       playList playerPlaying playerActive playerStopped flexFXList nextOid].

(** [activatePlayer] in closed form. *)
Lemma activatePlayer_spec (s : State) :
  activatePlayer s
    = (tt,
       mkState (playList s) (playerPlaying s)
         (playerActive s || negb (playerStopped s)) (playerStopped s)
         (flexFXList s) (nextOid s),
       if playerActive s || playerStopped s then [] else [InBackground]).
Proof.
  destruct s as [pl pp pa ps fl no]. unfold activatePlayer. run_cmd.
  destruct pa, ps; reflexivity.
Qed.

(** ** Waiting for the play-list *)

Lemma length_test (A : Type) (l : list A) :
  (0 <=? Z.of_nat (List.length l)) = true.
Proof. apply Z.leb_le. lia. Qed.

Lemma awaitPlayStart_spec (s : State) :
  awaitPlayStart s
    = (tt,
       mkState (playList s) (playerPlaying s) true false
         (flexFXList s) (nextOid s),
       (if playerActive s then [] else [InBackground])
         ++ [WaitForEvent STARTING]).
Proof.
  unfold awaitPlayStart, bind, get. rewrite length_test.
  unfold set_playerStopped. rewrite activatePlayer_spec.
  destruct s as [pl pp pa ps fl no]. destruct pa; reflexivity.
Qed.

Lemma awaitAllFinished_spec (s : State) :
  awaitAllFinished s
    = (tt,
       mkState (playList s) (playerPlaying s) true false
         (flexFXList s) (nextOid s),
       (if playerActive s then [] else [InBackground])
         ++ [WaitForEvent ALLPLAYED]).
Proof.
  unfold awaitAllFinished, bind, get. rewrite length_test.
  unfold set_playerStopped. rewrite activatePlayer_spec.
  destruct s as [pl pp pa ps fl no]. destruct pa; reflexivity.
Qed.

(** C8. [awaitPlayStart] and [awaitAllFinished], on every state (also on
    an empty play-list), clear [playerStopped] and make sure the player is
    started before they wait for their event: [playerActive] is set
    afterwards, a player fiber is started exactly when it was not set
    before, and the wait is the last call; the play-list, [playerPlaying]
    and the registry are left as they were. *)
Theorem await_resumes_playlist (s : State) :
  let started := if playerActive s then [] else [InBackground] in
  let resumed := mkState (playList s) (playerPlaying s) true false
                   (flexFXList s) (nextOid s) in
  (state_of (awaitPlayStart s) = resumed
   /\ calls_of (awaitPlayStart s) = started ++ [WaitForEvent STARTING])
  /\ (state_of (awaitAllFinished s) = resumed
      /\ calls_of (awaitAllFinished s) = started ++ [WaitForEvent ALLPLAYED])
  /\ playerStopped resumed = false
  /\ playerActive resumed = true
  /\ spawned started = (if playerActive s then [] else [AtOuterLoop]).
Proof.
  intros started resumed.
  rewrite awaitPlayStart_spec, awaitAllFinished_spec.
  split_ands; try reflexivity.
  unfold started. destruct (playerActive s); reflexivity.
Qed.

(** The call that C3 is about, on the empty play-list: [awaitPlayStart]
    starts a player and then waits for STARTING; the player it started
    finds nothing to play, raises ALLPLAYED only and returns. *)
Theorem awaitPlayStart_empty_playlist_waits :
  awaitPlayStart empty_state
    = (tt, mkState [] false true false [] 0,
       [InBackground; WaitForEvent STARTING])
  /\ worker_step AtOuterLoop (state_of (awaitPlayStart empty_state))
    = (Returned, empty_state, [RaiseEvent ALLPLAYED]).
Proof. split; reflexivity. Qed.

(** ** The registry *)

Lemma id_eqb_eq (a b : option string) : id_eqb a b = true <-> a = b.
Proof.
  destruct a as [x|], b as [y|]; cbn; split; try discriminate;
    try reflexivity.
  - intros H. apply String.eqb_eq in H. now subst.
  - intros [= ->]. apply String.eqb_refl.
Qed.

Lemma find_id_absent (x : option string) (l : list FlexFX) :
  (forall r, In r l -> id r <> x) -> find_id x l = None.
Proof.
  unfold find_id. induction l as [|y l IH]; intros H; cbn; [reflexivity|].
  destruct (id_eqb (id y) x) eqn:E.
  - apply id_eqb_eq in E. exfalso. apply (H y); [now left | exact E].
  - apply IH. intros r Hr. apply H. now right.
Qed.

Lemma find_id_found (x : option string) (l : list FlexFX) (r : FlexFX) :
  find_id x l = Some r -> In r l /\ id r = x.
Proof.
  unfold find_id. intros H. apply find_some in H. destruct H as (H1 & H2).
  split; [exact H1 | now apply id_eqb_eq].
Qed.

(** C9. [playFlexFX] with an id that no stored recipe has does nothing:
    the state (play-list, registry and the three flags) is the one before,
    and no call is made to the runtime, so no event is raised and the
    caller does not wait. *)
Theorem playFlexFX_unknown_id (s : State) (i : string) (pitch volume dur : Q)
    (background : bool) :
  (forall r, In r (flexFXList s) -> id r <> Some i) ->
  playFlexFX i pitch volume dur background s = (tt, s, []).
Proof.
  intros H. unfold playFlexFX, bind, get.
  rewrite (find_id_absent _ _ H). reflexivity.
Qed.

(** When the namespace has loaded, the registry holds the "violin" only:
    each of the four built-in recipes is stored under the id [""], which
    is not in the registry, and so evicts the one stored before it. *)
Lemma initial_state_eq : initial_state = violin_only.
Proof. vm_compute. reflexivity. Qed.

Lemma initial_registry : flexFXList initial_state = [violin].
Proof. now rewrite initial_state_eq. Qed.

Lemma playFlexFX_unknown_id_witness :
  (forall r, In r (flexFXList initial_state) -> id r <> Some "bark"%string)
  /\ playFlexFX "bark" 440 200 500 false initial_state
     = (tt, initial_state, []).
Proof.
  assert (H : forall r, In r (flexFXList initial_state) ->
                        id r <> Some "bark"%string).
  { rewrite initial_registry. intros r [<-|[]]. discriminate. }
  split; [exact H|].
  exact (playFlexFX_unknown_id initial_state "bark" 440 200 500 false H).
Defined.

(** ** Blocks and the player flags *)

(** No block writes [playerPlaying]. A block starts at most one player,
    and only when [playerActive] was false; it then sets [playerActive];
    no block clears it. *)
Lemma exec_flags (b : Block) (s : State) :
  playerPlaying (state_of (exec b s)) = playerPlaying s
  /\ ((spawned (calls_of (exec b s)) = []
       /\ playerActive (state_of (exec b s)) = playerActive s)
      \/ (spawned (calls_of (exec b s)) = [AtOuterLoop]
          /\ playerActive s = false
          /\ playerActive (state_of (exec b s)) = true)).
Proof.
  assert (Hact : forall s0 : State,
    playerPlaying (state_of (activatePlayer s0)) = playerPlaying s0
    /\ ((spawned (calls_of (activatePlayer s0)) = []
         /\ playerActive (state_of (activatePlayer s0)) = playerActive s0)
        \/ (spawned (calls_of (activatePlayer s0)) = [AtOuterLoop]
            /\ playerActive s0 = false
            /\ playerActive (state_of (activatePlayer s0)) = true))).
  { intros s0. rewrite activatePlayer_spec.
    destruct s0 as [pl pp pa ps fl no]. cbn.
    destruct pa, ps; cbn; auto. }
  destruct b.
  - (* playFlexFX *)
    unfold exec, playFlexFX, bind, get.
    destruct (find_id (Some i) (flexFXList s)) as [target|]; [|cbn; auto].
    unfold compilePlay, bind, get, set_playList.
    match goal with
    | |- context [activatePlayer ?s1] =>
        specialize (Hact s1); destruct (activatePlayer s1) as [[u s2] c]
    end.
    destruct background; cbn in *; rewrite ?app_nil_r;
      unfold spawned in *; rewrite ?filter_app, ?map_app, ?app_nil_r;
      exact Hact.
  - (* playBuiltInFlexFX *)
    unfold exec, playBuiltInFlexFX.
    destruct (builtInId_at (BuiltInFlexFX_value choice)) as [i|];
      [|cbn; auto].
    unfold playFlexFX, bind, get.
    destruct (find_id (Some i) (flexFXList s)) as [target|]; [|cbn; auto].
    unfold compilePlay, bind, get, set_playList.
    match goal with
    | |- context [activatePlayer ?s1] =>
        specialize (Hact s1); destruct (activatePlayer s1) as [[u s2] c]
    end.
    destruct background; cbn in *; rewrite ?app_nil_r;
      unfold spawned in *; rewrite ?filter_app, ?map_app, ?app_nil_r;
      exact Hact.
  - run_cmd. auto.
  - run_cmd. auto.
  - run_cmd. auto.
  - run_cmd. auto.
  - (* performSilence *)
    unfold exec, performSilence, bind, get, set_playList.
    match goal with
    | |- context [activatePlayer ?s1] =>
        specialize (Hact s1); destruct (activatePlayer s1) as [[u s2] c]
    end.
    cbn in *. exact Hact.
  - (* awaitPlayStart *)
    unfold exec. rewrite awaitPlayStart_spec.
    destruct s as [pl pp pa ps fl no]; destruct pa; cbn; auto.
  - unfold exec, awaitPlayFinish, bind, get.
    destruct (playerPlaying s) eqn:E; cbn; rewrite ?E; auto.
  - (* awaitAllFinished *)
    unfold exec. rewrite awaitAllFinished_spec.
    destruct s as [pl pp pa ps fl no]; destruct pa; cbn; auto.
  - run_cmd. auto.
  - run_cmd. auto.
  - (* startPlaying *)
    unfold exec, startPlaying, bind, set_playerStopped.
    match goal with
    | |- context [activatePlayer ?s1] =>
        specialize (Hact s1); destruct (activatePlayer s1) as [[u s2] c]
    end.
    cbn in *. exact Hact.
  - run_cmd. auto.
Qed.

(** ** The player, stretch by stretch *)

Lemma playSound_spec (sound : Part) (s : State) :
  playSound sound s = (tt, s, [partCall sound]).
Proof.
  unfold playSound, partCall. destruct (startsWith "_" sound); reflexivity.
Qed.

(** The head of the play-list is a queued pause. *)
Lemma outerLoop_pause (s : State) (play : Play) (others : list Play)
    (sound : Part) (rest : list Part) :
  playList s = play :: others ->
  parts play = sound :: rest ->
  startsWith "s" sound = true ->
  playerStopped s = false ->
  outerLoop s
    = (AtOuterLoop,
       mkState others (playerPlaying s) (playerActive s) false
         (flexFXList s) (nextOid s),
       [Pause (taggedLength sound)]).
Proof.
  destruct s as [pl pp pa ps fl no]. cbn. intros -> Hp Hs ->.
  unfold outerLoop, bind, get. cbn. rewrite Hp, Hs. reflexivity.
Qed.

(** The head of the play-list is a Play that counts. *)
Lemma outerLoop_start (s : State) (play : Play) (others : list Play)
    (sound : Part) (rest : list Part) :
  playList s = play :: others ->
  parts play = sound :: rest ->
  startsWith "s" sound = false ->
  playerStopped s = false ->
  outerLoop s
    = (AtInnerLoop rest,
       mkState others true (playerActive s) false (flexFXList s) (nextOid s),
       [RaiseEvent STARTING; partCall sound]).
Proof.
  destruct s as [pl pp pa ps fl no]. cbn. intros -> Hp Hs ->.
  unfold outerLoop, bind, get. cbn. rewrite Hp, Hs.
  unfold bind, call, set_playerPlaying. cbn. rewrite playSound_spec.
  reflexivity.
Qed.

(** The head of the play-list has no parts: [play.parts[0]] is
    [undefined]. *)
Lemma outerLoop_throw (s : State) (play : Play) (others : list Play) :
  playList s = play :: others ->
  parts play = [] ->
  playerStopped s = false ->
  outerLoop s
    = (Thrown,
       mkState others (playerPlaying s) (playerActive s) false
         (flexFXList s) (nextOid s),
       []).
Proof.
  destruct s as [pl pp pa ps fl no]. cbn. intros -> Hp ->.
  unfold outerLoop, bind, get. cbn. rewrite Hp. reflexivity.
Qed.

(** The play-list is empty, or playing is stopped: the player returns, and
    raises ALLPLAYED exactly when the play-list is empty. *)
Lemma outerLoop_exit (s : State) :
  playList s = [] \/ playerStopped s = true ->
  outerLoop s
    = (Returned,
       mkState (playList s) (playerPlaying s) false (playerStopped s)
         (flexFXList s) (nextOid s),
       match playList s with
       | [] => [RaiseEvent ALLPLAYED]
       | _ => []
       end).
Proof.
  destruct s as [pl pp pa ps fl no]. cbn. intros H.
  unfold outerLoop, bind, get. cbn.
  destruct pl as [|play others].
  - reflexivity.
  - destruct H as [H|H]; [discriminate|]. subst ps. reflexivity.
Qed.

(** The four outcomes of [outerLoop]. *)
Lemma outerLoop_cases (s : State) :
  (playList s = [] \/ playerStopped s = true)
  \/ (playerStopped s = false
      /\ exists play others,
           playList s = play :: others
           /\ (parts play = []
               \/ exists sound rest,
                    parts play = sound :: rest
                    /\ (startsWith "s" sound = true
                        \/ startsWith "s" sound = false))).
Proof.
  destruct (playList s) as [|play others] eqn:E; [left; now left|].
  destruct (playerStopped s); [left; now right|].
  right. split; [reflexivity|]. exists play, others. split; [reflexivity|].
  destruct (parts play) as [|sound rest]; [now left|].
  right. exists sound, rest. split; [reflexivity|].
  destruct (startsWith "s" sound); auto.
Qed.

Lemma outerLoop_flags (s : State) :
  playerActive s = true ->
  playerPlaying s = false ->
  flags_after (value_of (outerLoop s)) (state_of (outerLoop s)).
Proof.
  intros HA HP.
  destruct (outerLoop_cases s)
    as [H | (Hs & play & others & Hl & [Hp | (sound & rest & Hp & [Ht|Ht])])].
  - rewrite (outerLoop_exit s H). exact HP.
  - rewrite (outerLoop_throw s play others Hl Hp Hs). exact HP.
  - rewrite (outerLoop_pause s play others sound rest Hl Hp Ht Hs).
    cbn. auto.
  - rewrite (outerLoop_start s play others sound rest Hl Hp Ht Hs).
    cbn. auto.
Qed.

Lemma worker_step_flags (w : Worker) (s : State) :
  flags_after w s ->
  flags_after (value_of (worker_step w s)) (state_of (worker_step w s)).
Proof.
  destruct w as [|[|sound rest]| |]; cbn [flags_after worker_step].
  - intros [HA HP]. now apply outerLoop_flags.
  - intros [HA HP]. unfold bind, call, set_playerPlaying.
    set (s1 := mkState (playList s) false (playerActive s) (playerStopped s)
                 (flexFXList s) (nextOid s)).
    assert (H := outerLoop_flags s1 HA eq_refl).
    cbn [fst snd]. fold s1.
    destruct (outerLoop s1) as [[w' s'] c]. exact H.
  - intros [HA HP]. unfold bind, ret. rewrite playSound_spec. cbn. auto.
  - intros H. exact H.
  - intros H. exact H.
Qed.

(** ** One player at a time *)

Lemma flags_agree_alive (w : Worker) (s : State) :
  flags_after w s -> flags_agree (s, alive w).
Proof.
  destruct w; cbn; auto.
Qed.

Lemma flags_agree_single (s : State) (before after : list Worker)
    (w : Worker) :
  flags_agree (s, before ++ w :: after) ->
  before = [] /\ after = [] /\ flags_after w s
  /\ (w = AtOuterLoop \/ exists rest, w = AtInnerLoop rest).
Proof.
  unfold flags_agree. cbn [fst snd].
  destruct before as [|x [|y before]]; cbn.
  - destruct w, after; cbn; try tauto; intros H; split_ands; eauto;
      tauto.
  - destruct x; tauto.
  - destruct x; tauto.
Qed.

Lemma sys_step_flags_agree (x y : System) :
  sys_step x y -> flags_agree x -> flags_agree y.
Proof.
  intros [b s ws | s before after w] H.
  - destruct (exec_flags b s) as (HP & [(Hs & HA) | (Hs & HA & HA')]);
      rewrite Hs.
    + rewrite app_nil_r. unfold flags_agree in *. cbn [fst snd] in *.
      rewrite HP, HA. exact H.
    + unfold flags_agree in *. cbn [fst snd] in *.
      destruct ws as [|[|r| |] [|]]; try tauto; cbn.
      * split; [exact HA' | now rewrite HP].
      * destruct H; congruence.
      * destruct H; congruence.
  - destruct (flags_agree_single _ _ _ _ H) as (-> & -> & Hw & _).
    cbn [app]. rewrite app_nil_r.
    apply flags_agree_alive, worker_step_flags, Hw.
Qed.



(** ** Queued pauses *)



Lemma silence_queued_reachable : reachable (silence_queued, [AtOuterLoop]).
Proof.
  exact (reachable_step _ _ reachable_start
           (step_block (B_performSilence 1500) empty_state [])).
Qed.


(** ** Draining the play-list *)

Lemma run_player_Returned (fuel : nat) (s : State) :
  run_player fuel Returned s = (Returned, s, []).
Proof. destruct fuel; reflexivity. Qed.

(** Inside a Play: one stretch per remaining part. *)
Lemma run_player_inner (ps : list Part) (fuel : nat) (s : State) :
  run_player (List.length ps + fuel) (AtInnerLoop ps) s
    = (value_of (run_player fuel (AtInnerLoop []) s),
       state_of (run_player fuel (AtInnerLoop []) s),
       map partCall ps ++ calls_of (run_player fuel (AtInnerLoop []) s)).
Proof.
  induction ps as [|p ps IH].
  - cbn. now destruct (run_player fuel (AtInnerLoop []) s) as [[w' s'] c].
  - cbn [List.length Nat.add run_player map app].
    change (worker_step (AtInnerLoop (p :: ps)))
      with (playSound p ;; ret (AtInnerLoop ps)).
    unfold bind, ret. rewrite playSound_spec, IH.
    reflexivity.
Qed.

(** At the end of a Play: FINISHED, then on with the outer loop in the
    same stretch. *)
Lemma run_player_finish (fuel : nat) (s : State) :
  let s1 := mkState (playList s) false (playerActive s) (playerStopped s)
              (flexFXList s) (nextOid s) in
  run_player (S fuel) (AtInnerLoop []) s
    = (value_of (run_player (S fuel) AtOuterLoop s1),
       state_of (run_player (S fuel) AtOuterLoop s1),
       RaiseEvent FINISHED :: calls_of (run_player (S fuel) AtOuterLoop s1)).
Proof.
  intros s1. cbn [run_player].
  change (worker_step (AtInnerLoop []))
    with (call (RaiseEvent FINISHED) ;; set_playerPlaying false ;; outerLoop).
  change (worker_step AtOuterLoop) with outerLoop.
  unfold bind, call, set_playerPlaying. fold s1.
  destruct (outerLoop s1) as [[w' s'] c].
  destruct (run_player fuel w' s') as [[w'' s''] c'].
  reflexivity.
Qed.

(** Left alone with a play-list it is allowed to play, the player plays
    every Play in queue order, raises ALLPLAYED after the last one and
    returns, leaving the play-list empty. *)
Lemma run_player_drains (l : list Play) :
  forall (s : State) (fuel : nat),
    playList s = l ->
    playerStopped s = false ->
    playerPlaying s = false ->
    Forall (fun p => parts p <> []) l ->
    (drainSteps l <= fuel)%nat ->
    run_player fuel AtOuterLoop s
      = (Returned,
         mkState [] false false false (flexFXList s) (nextOid s),
         List.concat (map playCalls l) ++ [RaiseEvent ALLPLAYED]).
Proof.
  induction l as [|play l IH]; intros s fuel Hl Hs Hp Hne Hf.
  - destruct fuel as [|fuel]; [unfold drainSteps in Hf; cbn in Hf; lia|].
    cbn [run_player]. change (worker_step AtOuterLoop) with outerLoop.
    unfold bind. rewrite (outerLoop_exit s (or_introl Hl)).
    rewrite run_player_Returned, Hl, Hs, Hp. reflexivity.
  - inversion Hne as [|? ? Hplay Hrest]; subst.
    destruct (parts play) as [|sound rest] eqn:Eparts; [congruence|].
    assert (Hsteps : drainSteps (play :: l)
                     = (playSteps play + drainSteps l)%nat)
      by (unfold drainSteps, list_sum; cbn [map fold_right]; lia).
    assert (Hone : (1 <= drainSteps l)%nat) by (unfold drainSteps; lia).
    rewrite Hsteps in Hf. unfold playSteps in Hf. rewrite Eparts in Hf.
    destruct fuel as [|fuel]; [lia|].
    cbn [run_player]. change (worker_step AtOuterLoop) with outerLoop.
    unfold bind. cbn [map List.concat]. unfold playCalls at 1. rewrite Eparts.
    destruct (startsWith "s" sound) eqn:Et.
    + rewrite (outerLoop_pause s play l sound rest Hl Eparts Et Hs).
      rewrite (IH (mkState l (playerPlaying s) (playerActive s) false
                     (flexFXList s) (nextOid s))
                 fuel eq_refl eq_refl Hp Hrest) by lia.
      reflexivity.
    + rewrite (outerLoop_start s play l sound rest Hl Eparts Et Hs).
      replace fuel with (List.length rest + (fuel - List.length rest))%nat
        by lia.
      rewrite run_player_inner.
      destruct (fuel - List.length rest)%nat as [|fuel'] eqn:Ef; [lia|].
      rewrite run_player_finish. cbn [playList playerActive playerStopped
                                       flexFXList nextOid].
      rewrite (IH (mkState l false (playerActive s) false
                     (flexFXList s) (nextOid s))
                 (S fuel') eq_refl eq_refl eq_refl Hrest) by lia.
      cbn [value_of state_of calls_of fst snd flexFXList nextOid map app].
      rewrite <- !app_assoc. reflexivity.
Qed.

Lemma partCall_not_raise (p : Part) (e : PLAYER) : partCall p <> RaiseEvent e.
Proof. unfold partCall. destruct (startsWith "_" p); discriminate. Qed.

Lemma outerLoop_allplayed (s : State) :
  In (RaiseEvent ALLPLAYED) (calls_of (outerLoop s)) ->
  playList (state_of (outerLoop s)) = []
  /\ value_of (outerLoop s) = Returned.
Proof.
  destruct (outerLoop_cases s)
    as [H | (Hs & play & others & Hl & [Hp | (sound & rest & Hp & [Ht|Ht])])].
  - rewrite (outerLoop_exit s H). cbn.
    destruct (playList s); [auto | intros []].
  - rewrite (outerLoop_throw s play others Hl Hp Hs). intros [].
  - rewrite (outerLoop_pause s play others sound rest Hl Hp Ht Hs).
    intros [H|[]]. discriminate.
  - rewrite (outerLoop_start s play others sound rest Hl Hp Ht Hs).
    intros [H|[H|[]]]; [discriminate|].
    now apply partCall_not_raise in H.
Qed.

(** The player raises ALLPLAYED only in the stretch in which it finds the
    play-list empty and returns. *)
Lemma allplayed_only_when_empty (w : Worker) (s : State) :
  In (RaiseEvent ALLPLAYED) (calls_of (worker_step w s)) ->
  playList (state_of (worker_step w s)) = []
  /\ value_of (worker_step w s) = Returned.
Proof.
  destruct w as [|[|sound rest]| |].
  - exact (outerLoop_allplayed s).
  - change (worker_step (AtInnerLoop []))
      with (call (RaiseEvent FINISHED) ;; set_playerPlaying false ;; outerLoop).
    unfold bind, call, set_playerPlaying.
    set (s1 := mkState (playList s) false (playerActive s) (playerStopped s)
                 (flexFXList s) (nextOid s)).
    assert (H := outerLoop_allplayed s1).
    destruct (outerLoop s1) as [[w' s'] c]. cbn in *.
    intros [E|E]; [discriminate | exact (H E)].
  - change (worker_step (AtInnerLoop (sound :: rest)))
      with (playSound sound ;; ret (AtInnerLoop rest)).
    unfold bind, ret. rewrite playSound_spec. cbn.
    intros [H|[]]. now apply partCall_not_raise in H.
  - intros [].
  - intros [].
Qed.

(** ** Playing in the foreground *)

(** C10. [playFlexFX] with [background = false] and an id that is found
    appends the compiled Play to the play-list, makes sure the player is
    started, and then waits for ALLPLAYED. The player raises ALLPLAYED
    only in the stretch in which it finds the play-list empty and returns;
    and a player started by this call on a play-list it may play performs
    first every Play queued before, then the new one, and only then raises
    ALLPLAYED. *)
Theorem foreground_play_waits_for_all (s : State) (i : string)
    (pitch volume dur : Q) (target : FlexFX) :
  find_id (Some i) (flexFXList s) = Some target ->
  let play := compiledPlay target pitch volume dur in
  let s' := mkState (playList s ++ [play]) (playerPlaying s)
              (playerActive s || negb (playerStopped s)) (playerStopped s)
              (flexFXList s) (nextOid s) in
  playFlexFX i pitch volume dur false s
    = (tt, s',
       (if playerActive s || playerStopped s then [] else [InBackground])
         ++ [WaitForEvent ALLPLAYED])
  /\ (forall w s0,
        In (RaiseEvent ALLPLAYED) (calls_of (worker_step w s0)) ->
        playList (state_of (worker_step w s0)) = []
        /\ value_of (worker_step w s0) = Returned)
  /\ (playerActive s = false ->
      playerStopped s = false ->
      playerPlaying s = false ->
      Forall (fun p => parts p <> []) (playList s ++ [play]) ->
      forall fuel,
        (drainSteps (playList s ++ [play]) <= fuel)%nat ->
        run_player fuel AtOuterLoop s'
          = (Returned,
             mkState [] false false false (flexFXList s) (nextOid s),
             List.concat (map playCalls (playList s))
               ++ playCalls play ++ [RaiseEvent ALLPLAYED])).
Proof.
  intros Hfind play s'. split; [|split].
  - unfold playFlexFX, bind, get. rewrite Hfind.
    unfold compilePlay, bind, get, set_playList.
    rewrite activatePlayer_spec. reflexivity.
  - exact allplayed_only_when_empty.
  - intros HA Hs Hp Hne fuel Hf.
    rewrite (run_player_drains (playList s ++ [play]) s' fuel
               eq_refl Hs Hp Hne Hf).
    rewrite map_app, concat_app. cbn [map List.concat].
    rewrite app_nil_r, <- app_assoc. reflexivity.
Qed.

Lemma foreground_play_waits_for_all_witness :
  playFlexFX "violin" 0 0 333 false violin_only
    = (tt,
       mkState [compiledPlay violin 0 0 333] false true false [violin] 4,
       [InBackground; WaitForEvent ALLPLAYED]).
Proof.
  exact (proj1 (foreground_play_waits_for_all
                  violin_only "violin" 0 0 333 violin eq_refl)).
Defined.

(** ** Storing a recipe *)





(** A stored recipe with the id of the new one is looked for from index 1
    on: at index 0 it is not found, it stays, and the last recipe is
    removed in its place. *)
Lemma storeFlexFX_same_id_at_head :
  flexFXList (state_of (storeFlexFX 1000 recipe_a2 registry_ab))
    = [recipe_a; recipe_a2].
Proof. vm_compute. reflexivity. Qed.

(** With a [splice] that ignores a negative start, storing "a", "b" and
    a second "a" from the empty registry keeps all three: the first "a"
    stays at index 0, and it is the one a lookup of "a" finds. *)
Lemma storeFlexFX_same_id_at_head_from_front :
  flexFXList
    (state_of
       ((storeFlexFX_with splice_from_front 1000 recipe_a ;;
         storeFlexFX_with splice_from_front 1000 recipe_b ;;
         storeFlexFX_with splice_from_front 1000 recipe_a2) empty_state))
    = [recipe_a; recipe_b; recipe_a2]
  /\ find_id (Some "a"%string) [recipe_a; recipe_b; recipe_a2] = Some recipe_a.
Proof. split; vm_compute; reflexivity. Qed.

(** A stored recipe with the id of the new one that is not at index 0 is
    removed, as intended. *)
Lemma storeFlexFX_same_id_later :
  flexFXList
    (state_of (storeFlexFX 1000 recipe_a2
                 (mkState [] false false false [recipe_b; recipe_a] 2)))
    = [recipe_b; recipe_a2].
Proof. vm_compute. reflexivity. Qed.

Lemma In_firstn (A : Type) (n : nat) (l : list A) (x : A) :
  In x (firstn n l) -> In x l.
Proof.
  revert l; induction n as [|n IH]; intros [|y l]; cbn; try tauto.
  intros [H|H]; [now left | right; now apply IH].
Qed.

Lemma In_skipn (A : Type) (n : nat) (l : list A) (x : A) :
  In x (skipn n l) -> In x l.
Proof.
  revert l; induction n as [|n IH]; intros [|y l]; cbn; try tauto.
  intros H. right. now apply IH.
Qed.

(** [splice] only removes. *)
Lemma In_splice (A : Type) (start deleteCount : Z) (l : list A) (x : A) :
  In x (splice start deleteCount l) -> In x l.
Proof.
  unfold splice. intros H. apply in_app_or in H.
  destruct H as [H|H]; [now apply In_firstn in H | now apply In_skipn in H].
Qed.

(** Storing a built recipe keeps the registry one of built recipes. *)
Lemma storeFlexFX_Built (builtIn : Z) (target : FlexFX) (s : State) :
  Built target ->
  Forall Built (flexFXList s) ->
  Forall Built (flexFXList (state_of (storeFlexFX builtIn target s))).
Proof.
  intros Ht Hl.
  unfold storeFlexFX, storeFlexFX_with, bind, get, set_flexFXList.
  cbn [state_of fst snd flexFXList].
  apply Forall_app. split.
  - rewrite Forall_forall in *. intros x Hx. apply Hl.
    now apply In_splice in Hx.
  - constructor; [|constructor].
    destruct (builtIn <? 1000); [now apply Built_set_id | exact Ht].
Qed.

(** Every recipe a reachable registry holds was built by one of the four
    creation blocks. *)
Lemma exec_Built (b : Block) (s : State) :
  Forall Built (flexFXList s) ->
  Forall Built (flexFXList (state_of (exec b s))).
Proof.
  intros H.
  destruct b;
    try (unfold exec, createFlexFX, create2PartFlexFX, create3PartFlexFX,
           createDoubleFlexFX, bind, new;
         match goal with
         | |- context [storeFlexFX ?bi ?t ?s1] =>
             assert (G := storeFlexFX_Built bi t s1);
             destruct (storeFlexFX bi t s1) as [[u s2] c];
             apply G; [constructor | exact H]
         end).
  - unfold exec, playFlexFX, bind, get.
    destruct (find_id (Some i) (flexFXList s)); [|exact H].
    unfold compilePlay, bind, get, set_playList.
    rewrite activatePlayer_spec. destruct background; exact H.
  - unfold exec, playBuiltInFlexFX.
    destruct (builtInId_at (BuiltInFlexFX_value choice)); [|exact H].
    unfold playFlexFX, bind, get.
    destruct (find_id (Some s0) (flexFXList s)); [|exact H].
    unfold compilePlay, bind, get, set_playList.
    rewrite activatePlayer_spec. destruct background; exact H.
  - unfold exec, performSilence, bind, get, set_playList.
    rewrite activatePlayer_spec. exact H.
  - unfold exec. rewrite awaitPlayStart_spec. exact H.
  - unfold exec, awaitPlayFinish, bind, get.
    destruct (playerPlaying s); exact H.
  - unfold exec. rewrite awaitAllFinished_spec. exact H.
  - exact H.
  - exact H.
  - unfold exec, startPlaying, bind, set_playerStopped.
    rewrite activatePlayer_spec. exact H.
  - exact H.
Qed.

Lemma worker_step_registry (w : Worker) (s : State) :
  flexFXList (state_of (worker_step w s)) = flexFXList s.
Proof.
  assert (HO : forall s0, flexFXList (state_of (outerLoop s0)) = flexFXList s0).
  { intros s0.
    destruct (outerLoop_cases s0)
      as [H | (Hs & play & others & Hl
               & [Hp | (sound & rest & Hp & [Ht|Ht])])].
    - now rewrite (outerLoop_exit s0 H).
    - now rewrite (outerLoop_throw s0 play others Hl Hp Hs).
    - now rewrite (outerLoop_pause s0 play others sound rest Hl Hp Ht Hs).
    - now rewrite (outerLoop_start s0 play others sound rest Hl Hp Ht Hs). }
  destruct w as [|[|sound rest]| |]; try reflexivity.
  - apply HO.
  - change (worker_step (AtInnerLoop []))
      with (call (RaiseEvent FINISHED) ;; set_playerPlaying false ;; outerLoop).
    unfold bind, call, set_playerPlaying.
    set (s1 := mkState (playList s) false (playerActive s) (playerStopped s)
                 (flexFXList s) (nextOid s)).
    assert (H := HO s1). destruct (outerLoop s1) as [[w' s'] c]. exact H.
  - change (worker_step (AtInnerLoop (sound :: rest)))
      with (playSound sound ;; ret (AtInnerLoop rest)).
    unfold bind, ret. now rewrite playSound_spec.
Qed.

Lemma reachable_registry_Built (x : System) :
  reachable x -> Forall Built (flexFXList (fst x)).
Proof.
  induction 1 as [|x y Hx IH Hs].
  - constructor.
  - destruct Hs as [b s ws | s before after w]; cbn [fst] in *.
    + now apply exec_Built.
    + now rewrite worker_step_registry.
Qed.




(** * Further properties of the code *)

(** ** Stored profiles *)

Local Open Scope Q_scope.

Lemma goodFreqRatio_range (freq : Q) :
  0 <= goodFreqRatio freq /\ goodFreqRatio freq <= 2000.
Proof. unfold goodFreqRatio. minmax_cases; lra. Qed.

Lemma goodVolRatio_range (vol : Q) :
  0 <= goodVolRatio vol /\ goodVolRatio vol <= 100.
Proof. unfold goodVolRatio. minmax_cases; lra. Qed.

Lemma goodPoint_clamped (freq vol : Q) :
  goodPoint (goodFreqRatio freq) (goodVolRatio vol).
Proof. split; [apply goodFreqRatio_range | apply goodVolRatio_range]. Qed.

(** X1. Every point of the profile of a built recipe that the recipe uses
    holds a frequency ratio within 0..2000 and a volume ratio within
    0..100, whatever percentages the creation block was given. *)
Theorem stored_profile_clamped (r : FlexFX) :
  Built r ->
  goodPoint (freqRatio0 r) (volRatio0 r)
  /\ goodPoint (freqRatio1 r) (volRatio1 r)
  /\ (usesPoint2 r = true -> goodPoint (freqRatio2 r) (volRatio2 r))
  /\ (usesPoint3 r = true -> goodPoint (freqRatio3 r) (volRatio3 r)).
Proof.
  induction 1 as [ | | | | r i HB IH ]; [| | | | exact IH];
    unfold_targets; split_ands; intros;
    try apply goodPoint_clamped; discriminate.
Qed.

Lemma stored_profile_clamped_witness :
  goodPoint (freqRatio0 siren) (volRatio0 siren)
  /\ goodPoint (freqRatio1 siren) (volRatio1 siren)
  /\ (usesPoint2 siren = true -> goodPoint (freqRatio2 siren) (volRatio2 siren))
  /\ (usesPoint3 siren = true -> goodPoint (freqRatio3 siren) (volRatio3 siren)).
Proof.
  apply (stored_profile_clamped siren).
  apply Built_set_id, Built_double.
Defined.

(** A percentage within the range the clamp admits is stored as the ratio
    it stands for. *)
Lemma goodFreqRatio_percent (p : Q) :
  0 <= p -> p <= 200000 -> goodFreqRatio (p / 100) == p / 100.
Proof.
  intros H1 H2. assert (E : p / 100 == p * (1 # 100)) by reflexivity.
  unfold goodFreqRatio. minmax_cases; lra.
Qed.

Lemma goodVolRatio_percent (p : Q) :
  0 <= p -> p <= 10000 -> goodVolRatio (p / 100) == p / 100.
Proof.
  intros H1 H2. assert (E : p / 100 == p * (1 # 100)) by reflexivity.
  unfold goodVolRatio. minmax_cases; lra.
Qed.

(** X2. A recipe made by [createFlexFX] from pitch percentages within
    0..200000 and volume percentages within 0..10000, performed with
    nonzero arguments, compiles to one sound of the given wave, attack and
    effect: it runs from [freq * startPitchPercent / 100] to
    [freq * endPitchPercent / 100] and from [vol * startVolPercent / 100]
    to [vol * endVolPercent / 100], and lasts [ms]. *)
Theorem simple_recipe_performance (o : nat) (i : string)
    (sp sv : Q) (w : Wave) (a : Attack) (e : Effect) (ep ev : Q)
    (pitch volume dur freq vol ms : Q) :
  0 <= sp -> sp <= 200000 -> 0 <= ep -> ep <= 200000 ->
  0 <= sv -> sv <= 10000 -> 0 <= ev -> ev <= 10000 ->
  ~ freq == 0 -> ~ vol == 0 -> ~ ms == 0 ->
  exists se,
    parts (compiledPlay
             (createFlexFX_target (new_FlexFX o i)
                sp sv w a e ep ev pitch volume dur) freq vol ms)
      = [Sound se]
    /\ waveShape se = w /\ interpolation se = a /\ effect se = e
    /\ startFrequency se == freq * (sp / 100)
    /\ endFrequency se == freq * (ep / 100)
    /\ startVolume se == vol * (sv / 100)
    /\ endVolume se == vol * (ev / 100)
    /\ duration se == ms.
Proof.
  intros Hsp1 Hsp2 Hep1 Hep2 Hsv1 Hsv2 Hev1 Hev2 Hf Hv Hm.
  apply Qeq_bool_false in Hf, Hv, Hm.
  unfold compiledPlay. rewrite Hf, Hv, Hm. unfold_targets. cbn [app parts].
  eexists. split; [reflexivity|].
  cbn [waveShape interpolation effect startFrequency endFrequency
       startVolume endVolume duration].
  split_ands; try reflexivity.
  - now rewrite goodFreqRatio_percent.
  - now rewrite goodFreqRatio_percent.
  - now rewrite goodVolRatio_percent.
  - now rewrite goodVolRatio_percent.
  - assert (E : goodTimeRatio 1 1 == 1) by reflexivity. rewrite E. ring.
Qed.

Lemma simple_recipe_performance_witness :
  exists se,
    parts (compiledPlay ting 800 200 400) = [Sound se]
    /\ waveShape se = TRIANGLE /\ interpolation se = FAST /\ effect se = NONE
    /\ startFrequency se == 800 * (100 / 100)
    /\ endFrequency se == 800 * (90 / 100)
    /\ startVolume se == 200 * (100 / 100)
    /\ endVolume se == 200 * (80 / 100)
    /\ duration se == 400.
Proof.
  apply (simple_recipe_performance 4 "ting" 100 100 TRIANGLE FAST NONE 90 80
           800 200 400 800 200 400);
    first [ discriminate | intros H; discriminate H ].
Defined.

(** ** The shape of a compiled Play *)

(** Each declared part of a built recipe holds a share of the duration
    between 0 and 1. *)
Lemma Built_ratio_bounds (r : FlexFX) :
  Built r ->
  (0 <= timeRatioA r /\ timeRatioA r <= 1)
  /\ (playPartB r || skipPartB r = true ->
      0 <= timeRatioB r /\ timeRatioB r <= 1)
  /\ (playPartC r = true -> 0 <= timeRatioC r /\ timeRatioC r <= 1).
Proof.
  induction 1 as [ o i sp sv w a e ep ev pitch volume dur
                 | o i sp sv wA aA eA mp mv wB aB eB ep ev tpA pitch volume dur
                 | o i sp sv wA aA eA pAB vAB wB aB eB pBC vBC wC aC eC ep ev
                     tpA tpB pitch volume dur
                 | o i spA svA wA aA eA epA evA spB svB wB aB eB epB evB
                     tpA tgap pitch volume dur
                 | r i HB IH ].
  - unfold_targets.
    assert (E : goodTimeRatio 1 1 == 1) by reflexivity.
    split_ands; intros; try discriminate; rewrite ?E; lra.
  - unfold_targets.
    destruct (two_ratios (tpA / 100)) as (S & A & B).
    split_ands; intros; try discriminate; lra.
  - unfold_targets.
    destruct (three_ratios (tpA / 100) (tpB / 100) ((100 - tpA - tpB) / 100)
                (percent_rest tpA tpB)) as (S & A & B & C).
    split_ands; intros; lra.
  - unfold_targets.
    destruct (three_ratios (tpA / 100) (tgap / 100) ((100 - tpA - tgap) / 100)
                (percent_rest tpA tgap)) as (S & A & B & C).
    split_ands; intros; lra.
  - exact IH.
Qed.

Lemma share_within (m t : Q) :
  0 <= m -> 0 <= t -> t <= 1 -> 0 <= m * t /\ m * t <= m.
Proof. intros; split; nra. Qed.

Lemma floor_share_within (m t : Q) :
  0 <= m -> 0 <= t -> t <= 1 ->
  0 <= inject_Z (Qfloor (m * t)) /\ inject_Z (Qfloor (m * t)) <= m.
Proof.
  intros Hm H0 H1. destruct (share_within m t Hm H0 H1) as (A & B).
  split.
  - change 0 with (inject_Z (Qfloor 0)). rewrite <- Zle_Qle.
    now apply Qfloor_resp_le.
  - apply Qle_trans with (m * t); [apply Qfloor_le | exact B].
Qed.

Lemma sound_within (m t : Q) (w : Wave) (f0 f1 v0 v1 : Q) (e : Effect)
    (a : Attack) :
  0 <= m -> 0 <= t -> t <= 1 ->
  partWithin m (Sound (createSoundEffect w f0 f1 v0 v1 (m * t) e a)).
Proof.
  intros Hm H0 H1. exists (m * t). split; [reflexivity|].
  now apply share_within.
Qed.

Lemma gap_within (m t : Q) :
  0 <= m -> 0 <= t -> t <= 1 ->
  partWithin m (Tagged ("_" ++ convertToText (Qfloor (m * t)))).
Proof.
  intros Hm H0 H1. exists (inject_Z (Qfloor (m * t))).
  split; [apply partDuration_gap | now apply floor_share_within].
Qed.

(** X3. The Play compiled from a built recipe for a duration that is not
    negative has one, two or three parts; the first is a sound (never a
    tagged pause), and every part lasts between 0 and the duration of the
    performance. *)
Theorem compiled_play_shape (this : FlexFX) (freq vol ms : Q) :
  Built this ->
  0 <= orDefault ms (defaultMs this) ->
  exists a rest,
    parts (compiledPlay this freq vol ms) = Sound a :: rest
    /\ (List.length rest <= 2)%nat
    /\ Forall (partWithin (orDefault ms (defaultMs this))) (Sound a :: rest).
Proof.
  intros HB Hm.
  destruct (Built_flags this HB) as (HA & HB2 & HC & HK).
  destruct (Built_ratio_bounds this HB) as ((A0 & A1) & RB & RC).
  unfold compiledPlay. fold (orDefault ms (defaultMs this)).
  set (m := orDefault ms (defaultMs this)) in *.
  rewrite HA.
  destruct (playPartB this) eqn:EB.
  - destruct (HB2 eq_refl) as (E2 & ES). destruct (RB eq_refl) as (B0 & B1).
    rewrite E2.
    destruct (playPartC this) eqn:EC.
    + destruct (HC eq_refl) as (E3 & _). destruct (RC eq_refl) as (C0 & C1).
      rewrite E3. cbn [app]. do 2 eexists.
      split; [reflexivity|]. split; [cbn; lia|].
      repeat constructor; now apply sound_within.
    + cbn [app]. do 2 eexists.
      split; [reflexivity|]. split; [cbn; lia|].
      repeat constructor; now apply sound_within.
  - destruct (skipPartB this) eqn:ES.
    + assert (EC := HK eq_refl). destruct (HC EC) as (E3 & E2).
      destruct (RB eq_refl) as (B0 & B1). destruct (RC EC) as (C0 & C1).
      rewrite EC, E3. cbn [app]. do 2 eexists.
      split; [reflexivity|]. split; [cbn; lia|].
      repeat constructor;
        first [ now apply sound_within | now apply gap_within ].
    + destruct (playPartC this) eqn:EC.
      * destruct (HC eq_refl) as (E3 & _). destruct (RC eq_refl) as (C0 & C1).
        rewrite E3. cbn [app]. do 2 eexists.
        split; [reflexivity|]. split; [cbn; lia|].
        repeat constructor; now apply sound_within.
      * cbn [app]. do 2 eexists.
        split; [reflexivity|]. split; [cbn; lia|].
        repeat constructor; now apply sound_within.
Qed.

Lemma compiled_play_shape_witness :
  exists a rest,
    parts (compiledPlay siren 0 0 333) = Sound a :: rest
    /\ (List.length rest <= 2)%nat
    /\ Forall (partWithin 333) (Sound a :: rest).
Proof.
  apply (compiled_play_shape siren 0 0 333).
  - apply Built_set_id, Built_double.
  - discriminate.
Defined.

(** X4. What the three arguments of a performance reach: the durations of
    the compiled parts depend on [ms] only, their frequencies on [freq]
    only and their volumes on [vol] only, for every recipe. *)
Theorem performance_axes_independent (this : FlexFX)
    (freq vol ms freq' vol' ms' : Q) :
  map partDuration (parts (compiledPlay this freq vol ms))
    = map partDuration (parts (compiledPlay this freq' vol' ms))
  /\ map partFrequencies (parts (compiledPlay this freq vol ms))
     = map partFrequencies (parts (compiledPlay this freq vol' ms'))
  /\ map partVolumes (parts (compiledPlay this freq vol ms))
     = map partVolumes (parts (compiledPlay this freq' vol ms')).
Proof.
  unfold compiledPlay.
  destruct (playPartA this), (playPartB this), (skipPartB this),
    (playPartC this);
    cbn [app parts map partDuration partFrequencies partVolumes
         duration startFrequency endFrequency startVolume endVolume];
    split_ands; reflexivity.
Qed.

(** X5. A first part given 100 percent of the time or more takes all of
    it: the two-part, the three-part and the double recipe then store the
    ratio 1 for part A and 0 for the parts after it, whatever percentage
    the second part was given. *)
Theorem first_part_takes_all (tpA tpB : Q) :
  100 <= tpA ->
  (forall o i sp sv wA aA eA mp mv wB aB eB ep ev pitch volume dur,
     let r := create2PartFlexFX_target (new_FlexFX o i)
                sp sv wA aA eA mp mv wB aB eB ep ev tpA pitch volume dur in
     timeRatioA r == 1 /\ timeRatioB r == 0)
  /\ (forall o i sp sv wA aA eA pAB vAB wB aB eB pBC vBC wC aC eC ep ev
        pitch volume dur,
        let r := create3PartFlexFX_target (new_FlexFX o i)
                   sp sv wA aA eA pAB vAB wB aB eB pBC vBC wC aC eC ep ev
                   tpA tpB pitch volume dur in
        timeRatioA r == 1 /\ timeRatioB r == 0 /\ timeRatioC r == 0)
  /\ (forall o i spA svA wA aA eA epA evA spB svB wB aB eB epB evB
        pitch volume dur,
        let r := createDoubleFlexFX_target (new_FlexFX o i)
                   spA svA wA aA eA epA evA spB svB wB aB eB epB evB
                   tpA tpB pitch volume dur in
        timeRatioA r == 1 /\ timeRatioB r == 0 /\ timeRatioC r == 0).
Proof.
  intros H.
  assert (EA : tpA / 100 == tpA * (1 # 100)) by reflexivity.
  assert (EB : tpB / 100 == tpB * (1 # 100)) by reflexivity.
  assert (EC : (100 - tpA - tpB) / 100 == (100 - tpA - tpB) * (1 # 100))
    by reflexivity.
  split; [|split]; intros; subst r; unfold_targets; unfold goodTimeRatio;
    minmax_cases; split_ands; lra.
Qed.

Lemma first_part_takes_all_witness :
  let r := create3PartFlexFX_target (new_FlexFX 0 "late")
             100 100 SINE SLOW NONE 100 100 SINE SLOW NONE 100 100
             SINE SLOW NONE 100 100 150 30 440 200 500 in
  timeRatioA r == 1 /\ timeRatioB r == 0 /\ timeRatioC r == 0.
Proof.
  assert (H : (100 <= 150)%Q) by discriminate.
  exact (proj1 (proj2 (first_part_takes_all 150 30 H))
           0%nat "late"%string 100 100 SINE SLOW NONE 100 100 SINE SLOW NONE
           100 100 SINE SLOW NONE 100 100 440 200 500).
Defined.

Local Close Scope Q_scope.

(** ** What every reachable state keeps *)

Lemma compiled_parts_nonempty (this : FlexFX) (freq vol ms : Q) :
  Built this -> parts (compiledPlay this freq vol ms) <> [].
Proof.
  intros HB. destruct (Built_flags this HB) as (HA & _).
  unfold compiledPlay. rewrite HA. discriminate.
Qed.

Lemma In_removelast (A : Type) (l : list A) (x : A) :
  In x (removelast l) -> In x l.
Proof.
  induction l as [|y [|z l] IH]; cbn [removelast]; [trivial | intros [] |].
  intros [H|H]; [now left | right; now apply IH].
Qed.

Lemma iter_removelast_In (A : Type) (n : nat) (l : list A) (x : A) :
  In x (Nat.iter n (@removelast A) l) -> In x l.
Proof.
  induction n as [|n IH]; simpl; [trivial|].
  intros H. apply IH. now apply In_removelast.
Qed.

Lemma Forall_sub (A : Type) (P : A -> Prop) (l l' : list A) :
  (forall x, In x l' -> In x l) -> Forall P l -> Forall P l'.
Proof.
  intros H HP. rewrite Forall_forall in *. auto.
Qed.

(** No block queues a Play without parts. *)
Lemma exec_playList_nonempty (b : Block) (s : State) :
  Forall Built (flexFXList s) ->
  Forall (fun play => parts play <> []) (playList s) ->
  Forall (fun play => parts play <> []) (playList (state_of (exec b s))).
Proof.
  intros HR H.
  assert (Hplay : forall i pitch volume dur background,
             Forall (fun play => parts play <> [])
               (playList (state_of (playFlexFX i pitch volume dur background s)))).
  { intros i pitch volume dur background. unfold playFlexFX, bind, get.
    destruct (find_id (Some i) (flexFXList s)) as [target|] eqn:E; [|exact H].
    apply find_id_found in E. destruct E as (E & _).
    rewrite Forall_forall in HR. specialize (HR target E).
    unfold compilePlay, bind, get, set_playList.
    rewrite activatePlayer_spec.
    destruct background; cbn [state_of fst snd playList];
      (apply Forall_app; split; [exact H|]);
      (constructor; [now apply compiled_parts_nonempty | constructor]). }
  destruct b;
    try (unfold exec, createFlexFX, create2PartFlexFX, create3PartFlexFX,
           createDoubleFlexFX, storeFlexFX, storeFlexFX_with, bind, new, get,
           set_flexFXList;
         exact H).
  - apply Hplay.
  - unfold exec, playBuiltInFlexFX.
    destruct (builtInId_at (BuiltInFlexFX_value choice)); [apply Hplay|exact H].
  - unfold exec, performSilence, bind, get, set_playList.
    rewrite activatePlayer_spec. cbn [state_of fst snd playList].
    apply Forall_app. split; [exact H|].
    constructor; [discriminate | constructor].
  - unfold exec. rewrite awaitPlayStart_spec. exact H.
  - unfold exec, awaitPlayFinish, bind, get.
    destruct (playerPlaying s); exact H.
  - unfold exec. rewrite awaitAllFinished_spec. exact H.
  - unfold exec, startPlaying, bind, set_playerStopped.
    rewrite activatePlayer_spec. exact H.
  - unfold exec, deletePlaylist, bind, get, set_playList.
    cbn [state_of fst snd playList].
    apply (Forall_sub _ _ (playList s)); [|exact H].
    intros x. apply iter_removelast_In.
Qed.

(** A stretch of [outerLoop] on a play-list whose Plays all have parts:
    it does not throw, it clears [playerActive] when it returns, and it
    leaves a tail of the play-list. *)
Lemma outerLoop_outcome (s : State) :
  Forall (fun play => parts play <> []) (playList s) ->
  value_of (outerLoop s) <> Thrown
  /\ (value_of (outerLoop s) = Returned ->
      playerActive (state_of (outerLoop s)) = false)
  /\ Forall (fun play => parts play <> [])
       (playList (state_of (outerLoop s))).
Proof.
  intros H.
  destruct (outerLoop_cases s)
    as [E | (Hs & play & others & Hl & [Hp | (sound & rest & Hp & [Ht|Ht])])].
  - rewrite (outerLoop_exit s E). cbn. split_ands; auto. discriminate.
  - rewrite Hl in H. inversion H; subst. contradiction.
  - rewrite (outerLoop_pause s play others sound rest Hl Hp Ht Hs). cbn.
    rewrite Hl in H. inversion H; subst.
    split_ands; auto; discriminate.
  - rewrite (outerLoop_start s play others sound rest Hl Hp Ht Hs). cbn.
    rewrite Hl in H. inversion H; subst.
    split_ands; auto; discriminate.
Qed.

Lemma worker_step_outcome (w : Worker) (s : State) :
  w = AtOuterLoop \/ (exists rest, w = AtInnerLoop rest) ->
  Forall (fun play => parts play <> []) (playList s) ->
  value_of (worker_step w s) <> Thrown
  /\ (value_of (worker_step w s) = Returned ->
      playerActive (state_of (worker_step w s)) = false)
  /\ Forall (fun play => parts play <> [])
       (playList (state_of (worker_step w s))).
Proof.
  intros [-> | ([|sound rest] & ->)] H.
  - exact (outerLoop_outcome s H).
  - change (worker_step (AtInnerLoop []))
      with (call (RaiseEvent FINISHED) ;; set_playerPlaying false ;; outerLoop).
    unfold bind, call, set_playerPlaying.
    set (s1 := mkState (playList s) false (playerActive s) (playerStopped s)
                 (flexFXList s) (nextOid s)).
    assert (G := outerLoop_outcome s1 H).
    destruct (outerLoop s1) as [[w' s'] c]. exact G.
  - change (worker_step (AtInnerLoop (sound :: rest)))
      with (playSound sound ;; ret (AtInnerLoop rest)).
    unfold bind, ret. rewrite playSound_spec. cbn.
    split_ands; auto; discriminate.
Qed.

Lemma sys_step_healthy (x y : System) :
  sys_step x y -> healthy x -> healthy y.
Proof.
  intros Hs (HF & HR & HP & HA).
  assert (HF' := sys_step_flags_agree x y Hs HF).
  unfold healthy.
  destruct Hs as [b s ws | s before after w]; cbn [fst snd] in *.
  - split; [exact HF'|]. split; [now apply exec_Built|].
    split; [now apply exec_playList_nonempty|].
    destruct (exec_flags b s) as (_ & [(Hsp & Hact) | (Hsp & _ & _)]);
      rewrite Hsp.
    + rewrite app_nil_r, Hact. exact HA.
    + intros E. now apply app_eq_nil in E.
  - destruct (flags_agree_single _ _ _ _ HF) as (-> & -> & _ & Hw).
    destruct (worker_step_outcome w s Hw HP) as (HT & HRet & HP').
    split; [exact HF'|]. split; [now rewrite worker_step_registry|].
    split; [exact HP'|].
    cbn [app]. rewrite app_nil_r.
    destruct (value_of (worker_step w s)) eqn:E; cbn [alive];
      try discriminate; intros _; [now apply HRet | contradiction].
Qed.

Lemma reachable_healthy (x : System) : reachable x -> healthy x.
Proof.
  induction 1 as [|x y Hx IH Hs].
  - split; [reflexivity|]. split; [constructor|]. split; [constructor|].
    reflexivity.
  - exact (sys_step_healthy x y Hs IH).
Qed.

(** X6. In every reachable state at most one player fiber is alive, and
    [playerActive] is set exactly while there is one: [activatePlayer]
    never starts a second player, and no player dies with the flag left
    set. *)
Theorem at_most_one_player (s : State) (ws : list Worker) :
  reachable (s, ws) ->
  (List.length ws <= 1)%nat
  /\ (playerActive s = true <-> ws <> []).
Proof.
  intros HR. destruct (reachable_healthy _ HR) as (HF & _ & _ & HA).
  unfold flags_agree in HF. cbn [fst snd] in *.
  destruct ws as [|w [|w' ws]].
  - split; [cbn; lia|]. rewrite (HA eq_refl). split; [discriminate | tauto].
  - destruct w; try contradiction; destruct HF as (HA' & _);
      (split; [cbn; lia|]); rewrite HA'; split; auto; discriminate.
  - destruct w; contradiction.
Qed.

Lemma at_most_one_player_witness :
  (List.length [AtOuterLoop] <= 1)%nat
  /\ (playerActive silence_queued = true <-> [AtOuterLoop] <> []).
Proof.
  exact (at_most_one_player silence_queued [AtOuterLoop]
           silence_queued_reachable).
Defined.

(** X7. In every reachable state [playerPlaying] is set exactly while the
    player is inside a Play that counts, between its STARTING and its
    FINISHED: not while it sits in a queued pause, and not when there is
    no player. *)
Theorem playing_flag_exact (s : State) (ws : list Worker) :
  reachable (s, ws) ->
  (playerPlaying s = true <-> exists rest, ws = [AtInnerLoop rest]).
Proof.
  intros HR. destruct (reachable_healthy _ HR) as (HF & _).
  unfold flags_agree in HF. cbn [fst snd] in *.
  destruct ws as [|w [|w' ws]].
  - rewrite HF. split; [discriminate | intros (rest & E); discriminate E].
  - destruct w; try contradiction; destruct HF as (_ & HP); rewrite HP.
    + split; [discriminate | intros (rest' & E); discriminate E].
    + split; [intros _; now exists rest | reflexivity].
  - destruct w; contradiction.
Qed.

Lemma playing_flag_exact_witness :
  playerPlaying silence_queued = true
  <-> exists rest, [AtOuterLoop] = [AtInnerLoop rest].
Proof.
  exact (playing_flag_exact silence_queued [AtOuterLoop]
           silence_queued_reachable).
Defined.

(** X8. In every reachable state every queued Play has a first part, so
    the player, which reads [play.parts[0]] of the Play it takes off the
    play-list, never throws. *)
Theorem player_never_throws (s : State) (ws : list Worker) :
  reachable (s, ws) ->
  (forall play, In play (playList s) -> parts play <> [])
  /\ (forall w, In w ws -> value_of (worker_step w s) <> Thrown).
Proof.
  intros HR. destruct (reachable_healthy _ HR) as (HF & _ & HP & _).
  cbn [fst snd] in *. split.
  - now rewrite Forall_forall in HP.
  - intros w Hw. apply in_split in Hw. destruct Hw as (before & after & ->).
    destruct (flags_agree_single _ _ _ _ HF) as (_ & _ & _ & Hw).
    exact (proj1 (worker_step_outcome w s Hw HP)).
Qed.

Lemma player_never_throws_witness :
  (forall play, In play (playList silence_queued) -> parts play <> [])
  /\ (forall w, In w [AtOuterLoop] ->
                value_of (worker_step w silence_queued) <> Thrown).
Proof.
  exact (player_never_throws silence_queued [AtOuterLoop]
           silence_queued_reachable).
Defined.

(** ** The size of the registry, and looking up what was stored *)










(** ** Stopping, resuming and clearing the play-list *)

(** The player finishing the Play it is in, with [playerStopped] set. *)
Lemma finish_when_stopped (s : State) :
  playerStopped s = true ->
  run_player 1 (AtInnerLoop []) s
    = (Returned,
       mkState (playList s) false false true (flexFXList s) (nextOid s),
       RaiseEvent FINISHED
         :: match playList s with
            | [] => [RaiseEvent ALLPLAYED]
            | _ => []
            end).
Proof.
  intros Hs. rewrite run_player_finish. cbn [run_player].
  change (worker_step AtOuterLoop) with outerLoop. unfold bind.
  rewrite outerLoop_exit by (right; exact Hs).
  cbn [ret value_of state_of calls_of fst snd playList playerPlaying
       playerStopped flexFXList nextOid].
  rewrite Hs, app_nil_r. reflexivity.
Qed.

(** X11. [stopPlaying] takes effect between two Plays only. A player that
    is inside a Play when [playerStopped] is set performs the remaining
    parts of that Play, raises FINISHED, and then returns without taking
    anything off the play-list; it raises ALLPLAYED only if the play-list
    happens to be empty. *)
Theorem stop_waits_for_end_of_play (ps : list Part) (s : State) :
  playerStopped s = true ->
  run_player (List.length ps + 1) (AtInnerLoop ps) s
    = (Returned,
       mkState (playList s) false false true (flexFXList s) (nextOid s),
       map partCall ps
         ++ RaiseEvent FINISHED
            :: match playList s with
               | [] => [RaiseEvent ALLPLAYED]
               | _ => []
               end).
Proof.
  intros Hs. rewrite run_player_inner, (finish_when_stopped s Hs).
  reflexivity.
Qed.

Lemma stop_waits_for_end_of_play_witness :
  run_player 2 (AtInnerLoop [Tagged "_33"]) stopped_in_play
    = (Returned,
       mkState [mkPlay [Tagged "s1500"]] false false true [] 0,
       [Pause (Some 33); RaiseEvent FINISHED]).
Proof.
  exact (stop_waits_for_end_of_play [Tagged "_33"] stopped_in_play eq_refl).
Defined.

(** X12. Stopping and resuming loses nothing. A player that meets
    [playerStopped] at the test of its outer loop returns and leaves the
    play-list as it is; [startPlaying] then starts a new player, which
    performs every Play that was left, in queue order, and raises
    ALLPLAYED after the last one. *)
Theorem stop_then_start_plays_everything (s : State) (fuel : nat) :
  playerStopped s = true ->
  playerPlaying s = false ->
  Forall (fun play => parts play <> []) (playList s) ->
  (drainSteps (playList s) <= fuel)%nat ->
  worker_step AtOuterLoop s
    = (Returned,
       mkState (playList s) false false true (flexFXList s) (nextOid s),
       match playList s with
       | [] => [RaiseEvent ALLPLAYED]
       | _ => []
       end)
  /\ calls_of (startPlaying (state_of (worker_step AtOuterLoop s)))
     = [InBackground]
  /\ run_player fuel AtOuterLoop
       (state_of (startPlaying (state_of (worker_step AtOuterLoop s))))
     = (Returned,
        mkState [] false false false (flexFXList s) (nextOid s),
        List.concat (map playCalls (playList s)) ++ [RaiseEvent ALLPLAYED]).
Proof.
  intros Hs Hp Hne Hf.
  assert (E : worker_step AtOuterLoop s
              = (Returned,
                 mkState (playList s) false false true
                   (flexFXList s) (nextOid s),
                 match playList s with
                 | [] => [RaiseEvent ALLPLAYED]
                 | _ => []
                 end)).
  { change (worker_step AtOuterLoop s) with (outerLoop s).
    rewrite outerLoop_exit by (right; exact Hs). now rewrite Hs, Hp. }
  rewrite E. split; [reflexivity|].
  unfold startPlaying, bind, set_playerStopped.
  rewrite activatePlayer_spec.
  cbn [state_of calls_of fst snd playList playerPlaying playerActive
       playerStopped flexFXList nextOid orb negb app].
  split; [reflexivity|].
  now rewrite (run_player_drains (playList s)
                 (mkState (playList s) false true false
                    (flexFXList s) (nextOid s))
                 fuel eq_refl eq_refl eq_refl Hne Hf).
Qed.

Lemma stop_then_start_plays_everything_witness :
  run_player 2 AtOuterLoop
    (state_of
       (startPlaying (state_of (worker_step AtOuterLoop stopped_between_plays))))
    = (Returned, mkState [] false false false [] 0,
       [Pause (Some 1500); RaiseEvent ALLPLAYED]).
Proof.
  assert (H : Forall (fun play => parts play <> [])
                (playList stopped_between_plays)).
  { constructor; [discriminate | constructor]. }
  exact (proj2 (proj2 (stop_then_start_plays_everything
                         stopped_between_plays 2 eq_refl eq_refl H
                         (le_n 2)))).
Defined.

Lemma iter_removelast_length (A : Type) (n : nat) (l : list A) :
  List.length (Nat.iter n (@removelast A) l) = (List.length l - n)%nat.
Proof.
  induction n as [|n IH]; simpl; [lia|].
  rewrite removelast_firstn_len, length_firstn, IH. lia.
Qed.

(** Popping as many times as the list is long leaves nothing. *)
Lemma iter_removelast_all (A : Type) (l : list A) :
  Nat.iter (List.length l) (@removelast A) l = [].
Proof.
  apply length_zero_iff_nil. rewrite iter_removelast_length. lia.
Qed.

(** X13. [deletePlaylist] empties the play-list, however long it is, and
    touches nothing else, so that [waitingToPlay] then reports 0; a Play
    the player is inside is not affected: the player performs the parts
    that remain, raises FINISHED, finds the play-list empty, raises
    ALLPLAYED and returns. *)
Theorem deletePlaylist_spares_current_play (ps : list Part) (s : State) :
  let cleared := mkState [] (playerPlaying s) (playerActive s)
                   (playerStopped s) (flexFXList s) (nextOid s) in
  deletePlaylist s = (tt, cleared, [])
  /\ value_of (waitingToPlay cleared) = 0
  /\ run_player (List.length ps + 1) (AtInnerLoop ps) cleared
     = (Returned,
        mkState [] false false (playerStopped s) (flexFXList s) (nextOid s),
        map partCall ps ++ [RaiseEvent FINISHED; RaiseEvent ALLPLAYED]).
Proof.
  intros cleared. split; [|split].
  - unfold deletePlaylist, bind, get, set_playList.
    now rewrite iter_removelast_all.
  - reflexivity.
  - rewrite run_player_inner, run_player_finish. cbn [run_player].
    change (worker_step AtOuterLoop) with outerLoop. unfold bind.
    rewrite outerLoop_exit by (left; reflexivity).
    reflexivity.
Qed.

(** X14. [playFlexFX] with [background = true] and an id that is found
    returns without waiting for any event: it appends the compiled Play,
    so that [waitingToPlay] reports one more at once, and at most starts
    the player. *)
Theorem background_play_returns_at_once (s : State) (i : string)
    (pitch volume dur : Q) (target : FlexFX) :
  find_id (Some i) (flexFXList s) = Some target ->
  playList (state_of (playFlexFX i pitch volume dur true s))
    = playList s ++ [compiledPlay target pitch volume dur]
  /\ value_of (waitingToPlay (state_of (playFlexFX i pitch volume dur true s)))
     = value_of (waitingToPlay s) + 1
  /\ calls_of (playFlexFX i pitch volume dur true s)
     = (if playerActive s || playerStopped s then [] else [InBackground])
  /\ (forall e, ~ In (WaitForEvent e)
                    (calls_of (playFlexFX i pitch volume dur true s))).
Proof.
  intros H.
  assert (E : playFlexFX i pitch volume dur true s
              = (tt,
                 mkState (playList s ++ [compiledPlay target pitch volume dur])
                   (playerPlaying s)
                   (playerActive s || negb (playerStopped s))
                   (playerStopped s) (flexFXList s) (nextOid s),
                 if playerActive s || playerStopped s
                 then [] else [InBackground])).
  { unfold playFlexFX, bind, get. rewrite H.
    unfold compilePlay, bind, get, set_playList.
    rewrite activatePlayer_spec. cbn. now rewrite app_nil_r. }
  rewrite E. cbn [state_of calls_of value_of fst snd playList].
  split; [reflexivity|]. split.
  - unfold waitingToPlay, bind, get, ret. cbn. rewrite length_app. cbn. lia.
  - split; [reflexivity|].
    intros e. destruct (playerActive s || playerStopped s); cbn;
      [tauto | intros [F|[]]; discriminate F].
Qed.

Lemma background_play_returns_at_once_witness :
  playList (state_of (playFlexFX "violin" 0 0 333 true violin_only))
    = playList violin_only ++ [compiledPlay violin 0 0 333]
  /\ value_of
       (waitingToPlay (state_of (playFlexFX "violin" 0 0 333 true violin_only)))
     = value_of (waitingToPlay violin_only) + 1
  /\ calls_of (playFlexFX "violin" 0 0 333 true violin_only)
     = (if playerActive violin_only || playerStopped violin_only
        then [] else [InBackground])
  /\ (forall e, ~ In (WaitForEvent e)
                    (calls_of (playFlexFX "violin" 0 0 333 true violin_only))).
Proof.
  exact (background_play_returns_at_once violin_only "violin" 0 0 333 violin
           eq_refl).
Defined.

(** X15. A stopped play-list stays stopped, and no player is started,
    whatever block is run, until one of [startPlaying], [awaitPlayStart]
    and [awaitAllFinished] is: playing, queueing a pause, creating a
    recipe, asking or clearing the play-list do not resume it. *)
Theorem stopped_until_resumed (b : Block) (s : State) :
  playerStopped s = true ->
  b <> B_startPlaying ->
  b <> B_awaitPlayStart ->
  b <> B_awaitAllFinished ->
  playerStopped (state_of (exec b s)) = true
  /\ spawned (calls_of (exec b s)) = []
  /\ playerActive (state_of (exec b s)) = playerActive s.
Proof.
  intros Hs N1 N2 N3.
  assert (Hplay : forall i pitch volume dur background,
             playerStopped (state_of (playFlexFX i pitch volume dur background s))
               = true
             /\ spawned (calls_of (playFlexFX i pitch volume dur background s))
                = []
             /\ playerActive
                  (state_of (playFlexFX i pitch volume dur background s))
                = playerActive s).
  { intros i pitch volume dur background. unfold playFlexFX, bind, get.
    destruct (find_id (Some i) (flexFXList s)); [|cbn; auto].
    unfold compilePlay, bind, get, set_playList.
    rewrite activatePlayer_spec.
    cbn [state_of calls_of fst snd playList playerPlaying playerActive
         playerStopped flexFXList nextOid app].
    rewrite Hs, Bool.orb_true_r, Bool.orb_false_r.
    destruct background; cbn; auto. }
  destruct b; try contradiction.
  - apply Hplay.
  - unfold exec, playBuiltInFlexFX.
    destruct (builtInId_at (BuiltInFlexFX_value choice));
      [apply Hplay | cbn; auto].
  - run_cmd. auto.
  - run_cmd. auto.
  - run_cmd. auto.
  - run_cmd. auto.
  - unfold exec, performSilence, bind, get, set_playList.
    rewrite activatePlayer_spec.
    cbn [state_of calls_of fst snd playList playerPlaying playerActive
         playerStopped flexFXList nextOid app].
    rewrite Hs, Bool.orb_true_r, Bool.orb_false_r. cbn. auto.
  - unfold exec, awaitPlayFinish, bind, get.
    destruct (playerPlaying s); cbn; auto.
  - run_cmd. auto.
  - run_cmd. auto.
  - run_cmd. auto.
Qed.

Lemma stopped_until_resumed_witness :
  playerStopped
    (state_of (exec (B_performSilence 1500) stopped_between_plays)) = true
  /\ spawned (calls_of (exec (B_performSilence 1500) stopped_between_plays))
     = []
  /\ playerActive
       (state_of (exec (B_performSilence 1500) stopped_between_plays))
     = playerActive stopped_between_plays.
Proof.
  apply (stopped_until_resumed (B_performSilence 1500) stopped_between_plays);
    [reflexivity | discriminate | discriminate | discriminate].
Defined.

(** X16. [awaitPlayFinish] in a reachable state either returns at once,
    when no player is inside a Play, or waits for FINISHED while the
    player is inside one; the player then raises FINISHED as soon as it
    has performed the parts that remain, stopped or not. *)
Theorem awaitPlayFinish_is_answered (s : State) (ws : list Worker) :
  reachable (s, ws) ->
  (awaitPlayFinish s = (tt, s, [])
   /\ forall rest, ws <> [AtInnerLoop rest])
  \/ (awaitPlayFinish s = (tt, s, [WaitForEvent FINISHED])
      /\ exists ps,
           ws = [AtInnerLoop ps]
           /\ calls_of (run_player (List.length ps + 1) (AtInnerLoop ps) s)
              = map partCall ps
                  ++ RaiseEvent FINISHED
                     :: calls_of
                          (run_player 1 AtOuterLoop
                             (mkState (playList s) false (playerActive s)
                                (playerStopped s) (flexFXList s)
                                (nextOid s)))).
Proof.
  intros HR. destruct (reachable_healthy _ HR) as (HF & _).
  unfold flags_agree in HF. cbn [fst snd] in HF.
  unfold awaitPlayFinish, bind, get.
  destruct ws as [|w [|w' ws]].
  - left. rewrite HF. split; [reflexivity | discriminate].
  - destruct w; try contradiction; destruct HF as (_ & HP); rewrite HP.
    + left. split; [reflexivity | discriminate].
    + right. split; [reflexivity|]. exists rest. split; [reflexivity|].
      rewrite run_player_inner, run_player_finish. reflexivity.
  - destruct w; contradiction.
Qed.

Lemma awaitPlayFinish_is_answered_witness :
  (awaitPlayFinish silence_queued = (tt, silence_queued, [])
   /\ forall rest, [AtOuterLoop] <> [AtInnerLoop rest])
  \/ (awaitPlayFinish silence_queued
        = (tt, silence_queued, [WaitForEvent FINISHED])
      /\ exists ps,
           [AtOuterLoop] = [AtInnerLoop ps]
           /\ calls_of
                (run_player (List.length ps + 1) (AtInnerLoop ps) silence_queued)
              = map partCall ps
                  ++ RaiseEvent FINISHED
                     :: calls_of
                          (run_player 1 AtOuterLoop
                             (mkState (playList silence_queued) false
                                (playerActive silence_queued)
                                (playerStopped silence_queued)
                                (flexFXList silence_queued)
                                (nextOid silence_queued)))).
Proof.
  exact (awaitPlayFinish_is_answered silence_queued [AtOuterLoop]
           silence_queued_reachable).
Defined.

(** X17. On an empty play-list with no player alive, [awaitAllFinished]
    starts a player and waits for ALLPLAYED, and the first stretch of that
    player raises ALLPLAYED and returns: this wait, unlike the one of
    [awaitPlayStart], is answered at once. *)
Theorem awaitAllFinished_empty_is_answered (s : State) :
  playList s = [] ->
  playerActive s = false ->
  calls_of (awaitAllFinished s) = [InBackground; WaitForEvent ALLPLAYED]
  /\ worker_step AtOuterLoop (state_of (awaitAllFinished s))
     = (Returned,
        mkState [] (playerPlaying s) false false (flexFXList s) (nextOid s),
        [RaiseEvent ALLPLAYED]).
Proof.
  intros Hl Ha. rewrite awaitAllFinished_spec, Ha, Hl.
  split; [reflexivity|].
  change (worker_step AtOuterLoop) with outerLoop.
  rewrite outerLoop_exit by (left; reflexivity).
  reflexivity.
Qed.

Lemma awaitAllFinished_empty_is_answered_witness :
  calls_of (awaitAllFinished empty_state)
    = [InBackground; WaitForEvent ALLPLAYED]
  /\ worker_step AtOuterLoop (state_of (awaitAllFinished empty_state))
     = (Returned, mkState [] false false false [] 0, [RaiseEvent ALLPLAYED]).
Proof.
  exact (awaitAllFinished_empty_is_answered empty_state eq_refl eq_refl).
Defined.

(** ** From a recipe to the calls of the player *)

Local Open Scope Q_scope.


Local Close Scope Q_scope.


Example siren_gap_length :
  Qfloor (orDefault 333 (defaultMs siren) * timeRatioB siren) = 33.
Proof. vm_compute. reflexivity. Qed.



(** ** A play-list of pauses *)






(** ** Frequencies and volumes of compiled sounds *)

Local Open Scope Q_scope.

Lemma Built_points (r : FlexFX) :
  Built r ->
  goodPoint (freqRatio0 r) (volRatio0 r)
  /\ goodPoint (freqRatio1 r) (volRatio1 r)
  /\ (usesPoint2 r = true -> goodPoint (freqRatio2 r) (volRatio2 r))
  /\ (usesPoint3 r = true -> goodPoint (freqRatio3 r) (volRatio3 r)).
Proof.
  induction 1 as [ | | | | r i HB IH ]; [| | | | exact IH];
    unfold_targets; split_ands; intros;
    try apply goodPoint_clamped; discriminate.
Qed.

Lemma scaled_point (f v fr vr : Q) :
  0 <= f -> 0 <= v -> goodPoint fr vr ->
  (0 <= f * fr /\ f * fr <= 2000 * f) /\ (0 <= v * vr /\ v * vr <= 100 * v).
Proof.
  intros Hf Hv ((F0 & F1) & (V0 & V1)). split_ands; nra.
Qed.

Lemma zero_point (f v : Q) :
  0 <= f -> 0 <= v ->
  (0 <= 0 /\ 0 <= 2000 * f) /\ (0 <= 0 /\ 0 <= 100 * v).
Proof. intros; split_ands; lra. Qed.

(** X21. For a performance whose frequency and volume (after defaulting)
    are not negative, every sound of the Play compiled from a built
    recipe starts and ends at a frequency within 0..[2000 * freq] and at a
    volume within 0..[100 * vol]: the clamps on the ratios bound the
    compiled values. *)
Theorem compiled_sounds_bounded (this : FlexFX) (freq vol ms : Q) :
  Built this ->
  0 <= orDefault freq (defaultFreq this) ->
  0 <= orDefault vol (defaultVol this) ->
  Forall (soundWithin (orDefault freq (defaultFreq this))
            (orDefault vol (defaultVol this)))
    (parts (compiledPlay this freq vol ms)).
Proof.
  intros HB Hf Hv.
  destruct (Built_points this HB) as (P0 & P1 & P2 & P3).
  unfold compiledPlay.
  fold (orDefault freq (defaultFreq this)).
  fold (orDefault vol (defaultVol this)).
  set (f := orDefault freq (defaultFreq this)) in *.
  set (v := orDefault vol (defaultVol this)) in *.
  destruct (scaled_point f v _ _ Hf Hv P0) as (F0 & V0).
  destruct (scaled_point f v _ _ Hf Hv P1) as (F1 & V1).
  destruct (zero_point f v Hf Hv) as (FZ & VZ).
  assert (Q2 : (0 <= (if usesPoint2 this then f * freqRatio2 this else 0)
                /\ (if usesPoint2 this then f * freqRatio2 this else 0)
                   <= 2000 * f)
               /\ (0 <= (if usesPoint2 this then v * volRatio2 this else 0)
                   /\ (if usesPoint2 this then v * volRatio2 this else 0)
                      <= 100 * v)).
  { destruct (usesPoint2 this); [|split; assumption].
    exact (scaled_point f v _ _ Hf Hv (P2 eq_refl)). }
  assert (Q3 : (0 <= (if usesPoint3 this then f * freqRatio3 this else 0)
                /\ (if usesPoint3 this then f * freqRatio3 this else 0)
                   <= 2000 * f)
               /\ (0 <= (if usesPoint3 this then v * volRatio3 this else 0)
                   /\ (if usesPoint3 this then v * volRatio3 this else 0)
                      <= 100 * v)).
  { destruct (usesPoint3 this); [|split; assumption].
    exact (scaled_point f v _ _ Hf Hv (P3 eq_refl)). }
  destruct Q2 as (F2 & V2). destruct Q3 as (F3 & V3).
  cbn [parts].
  repeat (apply Forall_app; split);
    repeat match goal with
    | |- Forall _ (if ?c then _ else _) => destruct c
    | |- Forall _ [] => constructor
    | |- Forall _ (_ :: _) => constructor
    | |- soundWithin _ _ (Tagged _) => exact I
    | |- soundWithin _ _ (Sound _) =>
        cbn [soundWithin startFrequency endFrequency startVolume endVolume];
        split_ands; tauto
    end.
Qed.

Lemma compiled_sounds_bounded_witness :
  Forall (soundWithin (orDefault 0 (defaultFreq violin))
            (orDefault 0 (defaultVol violin)))
    (parts (compiledPlay violin 0 0 333)).
Proof.
  apply (compiled_sounds_bounded violin 0 0 333);
    [apply Built_set_id, Built_3part | discriminate | discriminate].
Defined.

Local Close Scope Q_scope.
